(** * nsqd/stats.go: the stats snapshot aggregator and the memory sampler

    A shallow embedding of [GetStats], [getMemStats] and of the JSON shape of
    the four stats structs, with the properties of the specification stated
    and proved over it. *)

From Stdlib Require Import ZArith QArith Qround String List.
From stdpp Require Import gmap strings list fin_maps sorting.

Local Open Scope string_scope.
Local Open Scope Z_scope.

(** ** Data model *)

(** Modelled from the spec: [quantile.Result] is declared in
    internal/quantile, outside this file; the stats code only carries a
    pointer to it around. It is kept as a token naming the snapshot. *)
Definition quantile_Result : Type := Z.

(** [type ClientStats struct] (a nil pointer is [None]; Go's sized integers
    are [Z], their ranges are stated where they matter). *)
Record ClientStats := {
  ClientID : string;
  Hostname : string;
  Version : string;
  RemoteAddress : string;
  State : Z;
  ReadyCount : Z;
  ClientStats_InFlightCount : Z;
  ClientStats_MessageCount : Z;
  FinishCount : Z;
  ClientStats_RequeueCount : Z;
  ConnectTime : Z;
  SampleRate : Z;
  Deflate : bool;
  Snappy : bool;
  UserAgent : string;
  Authed : bool;
  AuthIdentity : string;
  AuthIdentityURL : string;
  TLS : bool;
  CipherSuite : string;
  TLSVersion : string;
  TLSNegotiatedProtocol : string;
  TLSNegotiatedProtocolIsMutual : bool
}.

(** [type ChannelStats struct] *)
Record ChannelStats := {
  ChannelName : string;
  ChannelStats_Depth : Z;
  ChannelStats_BackendDepth : Z;
  ChannelStats_InFlightCount : Z;
  DeferredCount : Z;
  ChannelStats_MessageCount : Z;
  ChannelStats_RequeueCount : Z;
  TimeoutCount : Z;
  Clients : list ClientStats;
  ChannelStats_Paused : bool;
  ChannelStats_E2eProcessingLatency : option quantile_Result
}.

(** [type TopicStats struct] *)
Record TopicStats := {
  TopicName : string;
  Channels : list ChannelStats;
  TopicStats_Depth : Z;
  TopicStats_BackendDepth : Z;
  TopicStats_MessageCount : Z;
  TopicStats_Paused : bool;
  TopicStats_E2eProcessingLatency : option quantile_Result
}.

(** Modelled from the spec: the broker's [Client], [Channel], [Topic] and
    [NSQD] types are declared outside this file. They are given as the spec's
    data model has them, with one field per accessor that stats.go calls: the
    value that accessor returns in the broker state under consideration. *)
Record Client := {
  Stats : ClientStats
}.

Record Channel := {
  Channel_name : string;
  clients : gmap Z Client;
  Channel_Depth : Z;
  Channel_backend_Depth : Z;
  inFlightCount : Z;
  deferredCount : Z;
  Channel_messageCount : Z;
  requeueCount : Z;
  timeoutCount : Z;
  Channel_IsPaused : bool;
  e2eProcessingLatencyStream_Result : option quantile_Result
}.

Record Topic := {
  Topic_name : string;
  channelMap : gmap string Channel;
  Topic_Depth : Z;
  Topic_backend_Depth : Z;
  Topic_messageCount : Z;
  Topic_IsPaused : bool;
  AggregateChannelE2eProcessingLatency_Result : option quantile_Result
}.

Record NSQD := {
  topicMap : gmap string Topic
}.

(** ** Constructors of the value objects *)

Definition NewTopicStats (t : Topic) (channels : list ChannelStats) : TopicStats :=
  {| TopicName := Topic_name t;
     Channels := channels;
     TopicStats_Depth := Topic_Depth t;
     TopicStats_BackendDepth := Topic_backend_Depth t;
     TopicStats_MessageCount := Topic_messageCount t;
     TopicStats_Paused := Topic_IsPaused t;
     TopicStats_E2eProcessingLatency := AggregateChannelE2eProcessingLatency_Result t |}.

Definition NewChannelStats (c : Channel) (clients : list ClientStats) : ChannelStats :=
  {| ChannelName := Channel_name c;
     ChannelStats_Depth := Channel_Depth c;
     ChannelStats_BackendDepth := Channel_backend_Depth c;
     ChannelStats_InFlightCount := inFlightCount c;
     DeferredCount := deferredCount c;
     ChannelStats_MessageCount := Channel_messageCount c;
     ChannelStats_RequeueCount := requeueCount c;
     TimeoutCount := timeoutCount c;
     Clients := clients;
     ChannelStats_Paused := Channel_IsPaused c;
     ChannelStats_E2eProcessingLatency := e2eProcessingLatencyStream_Result c |}.

(** ** The comparators *)

(** Go's [<] on strings compares byte by byte: [String.ltb]. *)
Definition TopicStatsByTopicName_Less (a b : TopicStats) : bool :=
  String.ltb (TopicName a) (TopicName b).

Definition ChannelStatsByChannelName_Less (a b : ChannelStats) : bool :=
  String.ltb (ChannelName a) (ChannelName b).

(** ** [sort.Sort] *)

Section sort.
Context {A : Type} (Less : A → A → bool).

(** [sort.IsSorted]: no element is [Less] than the one before it. *)
Definition sort_IsSorted (l : list A) : Prop :=
  Sorted (λ a b, Less b a = false) l.

(** What [sort.Sort] promises: the slice is rearranged in place and ends
    sorted by [Less]; the sort is not stable, so elements that [Less] does
    not tell apart may end in any order. *)
Definition sort_Sort (l l' : list A) : Prop :=
  l' ≡ₚ l ∧ sort_IsSorted l'.

(** One run of it: the insertion sort the package uses on short slices. *)
Fixpoint insert_sorted (x : A) (l : list A) : list A :=
  match l with
  | [] => [x]
  | y :: l' => if Less x y then x :: l else y :: insert_sorted x l'
  end.

Definition insertionSort (l : list A) : list A :=
  fold_left (λ acc x, insert_sorted x acc) l [].
End sort.

(** ** [GetStats] *)

(** [for _, v := range m]: the entries are visited once each, in an order
    the runtime chooses anew at every loop. *)
Definition range {K V} `{Countable K} (m : gmap K V) (visited : list V) : Prop :=
  visited ≡ₚ (map_to_list m).*2.

(** The filter of lines 149-159 and 175-185: the empty name selects every
    entry, another name the entry it names, if any. *)
Inductive selected {V} (name : string) (m : gmap string V) : option (list V) → Prop :=
  | selected_all visited :
      name = "" → range m visited → selected name m (Some visited)
  | selected_one val :
      name ≠ "" → m !! name = Some val → selected name m (Some [val])
  | selected_none :
      name ≠ "" → m !! name = None → selected name m None.

(** One goroutine per element, each appending at most one value to the
    shared slice under its mutex; after [Wait] the slice holds what was
    appended, in the order the goroutines got the mutex. *)
Definition joined {A B} (task : A → option B → Prop) (xs : list A) (out : list B) : Prop :=
  ∃ rs, Forall2 task xs rs ∧ out ≡ₚ omap id rs.

(** Lines 195-212: the goroutine of one channel. *)
Inductive channelTask (c : Channel) : ChannelStats → Prop :=
  | channelTask_run visited :
      range (clients c) visited →
      channelTask c (NewChannelStats c (Stats <$> visited)).

(** Lines 169-224: the goroutine of one topic; [None] when it returns
    without appending. *)
Inductive topicTask (channel : string) (t : Topic) : option TopicStats → Prop :=
  | topicTask_return :
      selected channel (channelMap t) None →
      topicTask channel t None
  | topicTask_run realChannels channels sorted :
      selected channel (channelMap t) (Some realChannels) →
      joined (λ c r, ∃ cs, r = Some cs ∧ channelTask c cs) realChannels channels →
      sort_Sort ChannelStatsByChannelName_Less channels sorted →
      topicTask channel t (Some (NewTopicStats t sorted)).

(** [GetStats n topic channel topics]: a call may return [topics]. *)
Inductive GetStats (n : NSQD) (topic channel : string) : list TopicStats → Prop :=
  | GetStats_return :
      selected topic (topicMap n) None →
      GetStats n topic channel []
  | GetStats_run realTopics topics sorted :
      selected topic (topicMap n) (Some realTopics) →
      joined (topicTask channel) realTopics topics →
      sort_Sort TopicStatsByTopicName_Less topics sorted →
      GetStats n topic channel sorted.

(** *** The sequential schedule

    The run in which every [range] visits the entries in the order of
    [map_to_list] and every goroutine finishes before the next one starts. *)

Definition selected_seq {V} (name : string) (m : gmap string V) : option (list V) :=
  if decide (name = "") then Some (map_to_list m).*2
  else (λ val, [val]) <$> m !! name.

Definition channelTask_seq (c : Channel) : ChannelStats :=
  NewChannelStats c (Stats <$> (map_to_list (clients c)).*2).

Definition topicTask_seq (channel : string) (t : Topic) : option TopicStats :=
  realChannels ← selected_seq channel (channelMap t);
  Some (NewTopicStats t
          (insertionSort ChannelStatsByChannelName_Less (channelTask_seq <$> realChannels))).

Definition GetStats_seq (n : NSQD) (topic channel : string) : list TopicStats :=
  match selected_seq topic (topicMap n) with
  | None => []
  | Some realTopics =>
      insertionSort TopicStatsByTopicName_Less (omap (topicTask_seq channel) realTopics)
  end.

(** ** Orderings of the output *)

(** Ascending by a name: no element has a name greater, byte by byte, than
    that of an element after it. *)
Definition non_decreasing_by {A} (key : A → string) (l : list A) : Prop :=
  StronglySorted (λ a b, (key a ≤ key b)%string) l.

(** The claim that every level of the output is in ascending order, the
    clients of a channel by [client_name]. *)
Definition ordered_at_every_level (client_name : ClientStats → string)
    (res : list TopicStats) : Prop :=
  Forall (λ ts,
    non_decreasing_by ChannelName (Channels ts) ∧
    Forall (λ cs, non_decreasing_by client_name (Clients cs)) (Channels ts)) res.

(** The clients of [cs] are those of the channel [c], in the order a
    [range] over its client map may visit them. *)
Definition clients_in_range_order (c : Channel) (cs : ChannelStats) : Prop :=
  ∃ visited, range (clients c) visited ∧ Clients cs = Stats <$> visited.

(** ** The broker's invariant on names

    The broker files every topic and every channel under its own name, and
    no name is empty (the empty filter means "all"). *)
Definition keyed_by_name {V} (name : V → string) (m : gmap string V) : Prop :=
  map_Forall (λ k v, name v = k) m.

Definition wf_Topic (t : Topic) : Prop :=
  keyed_by_name Channel_name (channelMap t).

Definition wf_NSQD (n : NSQD) : Prop :=
  keyed_by_name Topic_name (topicMap n) ∧
  map_Forall (λ _ t, wf_Topic t) (topicMap n).

(** ** What a topic contributes under a channel filter *)

Definition contribution (channel : string) (t : Topic) (r : option TopicStats) : Prop :=
  match channelMap t !! channel with
  | None => r = None
  | Some c => ∃ cs, channelTask c cs ∧ r = Some (NewTopicStats t [cs])
  end.

(** ** Equality of results up to the order of the clients *)

Definition with_Clients (cl : list ClientStats) (cs : ChannelStats) : ChannelStats :=
  {| ChannelName := ChannelName cs;
     ChannelStats_Depth := ChannelStats_Depth cs;
     ChannelStats_BackendDepth := ChannelStats_BackendDepth cs;
     ChannelStats_InFlightCount := ChannelStats_InFlightCount cs;
     DeferredCount := DeferredCount cs;
     ChannelStats_MessageCount := ChannelStats_MessageCount cs;
     ChannelStats_RequeueCount := ChannelStats_RequeueCount cs;
     TimeoutCount := TimeoutCount cs;
     Clients := cl;
     ChannelStats_Paused := ChannelStats_Paused cs;
     ChannelStats_E2eProcessingLatency := ChannelStats_E2eProcessingLatency cs |}.

Definition with_Channels (chs : list ChannelStats) (ts : TopicStats) : TopicStats :=
  {| TopicName := TopicName ts;
     Channels := chs;
     TopicStats_Depth := TopicStats_Depth ts;
     TopicStats_BackendDepth := TopicStats_BackendDepth ts;
     TopicStats_MessageCount := TopicStats_MessageCount ts;
     TopicStats_Paused := TopicStats_Paused ts;
     TopicStats_E2eProcessingLatency := TopicStats_E2eProcessingLatency ts |}.

(** Two [ChannelStats] that differ at most in the order of their clients. *)
Definition ChannelStats_equiv (a b : ChannelStats) : Prop :=
  with_Clients [] a = with_Clients [] b ∧ Clients a ≡ₚ Clients b.

(** Two [TopicStats] with the same fields and, position by position, the
    same channels up to the order of their clients. *)
Definition TopicStats_equiv (a b : TopicStats) : Prop :=
  with_Channels [] a = with_Channels [] b ∧
  Forall2 ChannelStats_equiv (Channels a) (Channels b).

(** ** A broker state to run on *)

Definition example_ClientStats (id : string) : ClientStats :=
  {| ClientID := id; Hostname := id; Version := "V2"; RemoteAddress := "10.0.0.1:4150";
     State := 3; ReadyCount := 1; ClientStats_InFlightCount := 0;
     ClientStats_MessageCount := 7; FinishCount := 7; ClientStats_RequeueCount := 0;
     ConnectTime := 1500000000; SampleRate := 0; Deflate := false; Snappy := false;
     UserAgent := "go-nsq"; Authed := false; AuthIdentity := ""; AuthIdentityURL := "";
     TLS := false; CipherSuite := ""; TLSVersion := ""; TLSNegotiatedProtocol := "";
     TLSNegotiatedProtocolIsMutual := false |}.

Definition example_Channel (name : string) (cl : gmap Z Client) : Channel :=
  {| Channel_name := name; clients := cl; Channel_Depth := 2; Channel_backend_Depth := 0;
     inFlightCount := 1; deferredCount := 0; Channel_messageCount := 9; requeueCount := 0;
     timeoutCount := 0; Channel_IsPaused := false;
     e2eProcessingLatencyStream_Result := None |}.

Definition example_Topic (name : string) (chs : gmap string Channel) : Topic :=
  {| Topic_name := name; channelMap := chs; Topic_Depth := 0; Topic_backend_Depth := 0;
     Topic_messageCount := 9; Topic_IsPaused := false;
     AggregateChannelE2eProcessingLatency_Result := None |}.

Definition example_Client (id : string) : Client :=
  {| Stats := example_ClientStats id |}.

(** Two clients, "a" under connection id 1 and "b" under id 2. *)
Definition example_clients : gmap Z Client :=
  <[1 := example_Client "a"]> (<[2 := example_Client "b"]> ∅).

Definition example_billing : Channel := example_Channel "billing" example_clients.

Definition example_orders : Topic :=
  example_Topic "orders"
    (<["billing" := example_billing]> (<["archive" := example_Channel "archive" ∅]> ∅)).

Definition example_events : Topic :=
  example_Topic "events" (<["audit" := example_Channel "audit" ∅]> ∅).

Definition example_NSQD : NSQD :=
  {| topicMap := <["orders" := example_orders]> (<["events" := example_events]> ∅) |}.

(** A broker with the one topic "orders" and its one channel "billing". *)
Definition small_orders : Topic :=
  example_Topic "orders" (<["billing" := example_billing]> ∅).

Definition small_NSQD : NSQD :=
  {| topicMap := <["orders" := small_orders]> ∅ |}.

(** The names in a result: topics, their channels, the ids of their clients. *)
Definition names_of (res : list TopicStats) : list (string * list (string * list string)) :=
  (λ ts, (TopicName ts,
          (λ cs, (ChannelName cs, ClientID <$> Clients cs)) <$> Channels ts)) <$> res.

(** What [GetStats "" ""] returns on it when the [range] over the clients
    visits them in the order [visited]. *)
Definition small_result (visited : list Client) : list TopicStats :=
  [NewTopicStats small_orders [NewChannelStats example_billing (Stats <$> visited)]].

(** ** The memory sampler *)

(** [runtime.MemStats], the fields that [getMemStats] reads; [PauseNs] is
    the runtime's buffer of recent pause durations, a [[256]uint64]. *)
Record runtime_MemStats := {
  MemStats_HeapObjects : Z;
  HeapIdle : Z;
  HeapInuse : Z;
  HeapReleased : Z;
  NextGC : Z;
  NumGC : Z;
  PauseNs : list Z
}.

(** [type memStats struct] *)
Record memStats := {
  HeapObjects : Z;
  HeapIdleBytes : Z;
  HeapInUseBytes : Z;
  HeapReleasedBytes : Z;
  GCPauseUsec100 : Z;
  GCPauseUsec99 : Z;
  GCPauseUsec95 : Z;
  NextGCBytes : Z;
  GCTotalRuns : Z
}.

(** Modelled from the spec: [Uint64Slice] and its [Less] are declared
    outside this file; the spec has the pauses sorted ascending. *)
Definition Uint64Slice_Less (a b : Z) : bool := Z.ltb a b.

Section sampler.
(** [percentile] is declared outside this file: [getMemStats] is given
    over any function of its type. *)
Variable percentile : Q → list Z → Z → Z.

(** Lines 250-256: the first [min(NumGC, len(PauseNs))] entries of the
    buffer, copied and sorted. On [uint64] values a sorted slice is the same
    whatever run of [sort.Sort] produced it, so the insertion sort stands
    for all of them. *)
Definition gcPauses (ms : runtime_MemStats) : list Z :=
  let length := Z.of_nat (length (PauseNs ms)) in
  let length := if Z.ltb (NumGC ms) length then NumGC ms else length in
  insertionSort Uint64Slice_Less (take (Z.to_nat length) (PauseNs ms)).

Definition getMemStats (ms : runtime_MemStats) : memStats :=
  let gcPauses := gcPauses ms in
  {| HeapObjects := MemStats_HeapObjects ms;
     HeapIdleBytes := HeapIdle ms;
     HeapInUseBytes := HeapInuse ms;
     HeapReleasedBytes := HeapReleased ms;
     GCPauseUsec100 := Z.quot (percentile 100 gcPauses (Z.of_nat (length gcPauses))) 1000;
     GCPauseUsec99 := Z.quot (percentile 99 gcPauses (Z.of_nat (length gcPauses))) 1000;
     GCPauseUsec95 := Z.quot (percentile 95 gcPauses (Z.of_nat (length gcPauses))) 1000;
     NextGCBytes := NextGC ms;
     GCTotalRuns := NumGC ms |}.
End sampler.

(** Modelled from the spec: [percentile] is declared outside this file. The
    spec gives it as the nearest-rank rule: over a sorted sample of size [n]
    it takes the element at index [ceil(p/100 * n) - 1], clamped into
    [0, n-1], and it is 0 when [n = 0]. *)
Definition nearest_rank (perc : Q) (n : Z) : Z :=
  Z.max 0 (Z.min (n - 1) (Qceiling (perc / 100 * inject_Z n) - 1)).

Definition percentile (perc : Q) (arr : list Z) (length : Z) : Z :=
  if Z.eqb length 0 then 0 else nth (Z.to_nat (nearest_rank perc length)) arr 0.

(** A sample of the runtime's counters: three collections so far, with
    pauses of 3000, 1000 and 2500 ns, in a buffer of 256 entries. *)
Definition example_MemStats : runtime_MemStats :=
  {| MemStats_HeapObjects := 1200; HeapIdle := 65536; HeapInuse := 131072;
     HeapReleased := 0; NextGC := 4194304; NumGC := 3;
     PauseNs := [3000; 1000; 2500] ++ replicate 253 0 |}.

(** ** The JSON shape of the stats structs *)

(** JSON values; an object keeps its members in the order written. *)
#[local] Unset Elimination Schemes.
Inductive json :=
  | JNull
  | JBool (b : bool)
  | JNumber (z : Z)
  | JString (s : string)
  | JArray (elements : list json)
  | JObject (members : list (string * json)).
#[local] Set Elimination Schemes.

(** A struct field as [encoding/json] reads it: the name and the
    [omitempty] option of its tag, and the field's value. *)
Record field := {
  field_name : string;
  field_omitempty : bool;
  field_value : json
}.

Definition tagged (name : string) (v : json) : field :=
  {| field_name := name; field_omitempty := false; field_value := v |}.

Definition tagged_omitempty (name : string) (v : json) : field :=
  {| field_name := name; field_omitempty := true; field_value := v |}.

(** The values [omitempty] leaves out: false, 0, a nil pointer, and an
    empty string or slice. *)
Definition isEmptyValue (v : json) : bool :=
  match v with
  | JNull | JBool false | JNumber 0 | JString "" | JArray [] => true
  | _ => false
  end.

(** [json.Marshal] of a struct: one member per field, in the order of
    declaration, under the name of its tag. *)
Definition marshal_struct (fields : list field) : json :=
  JObject (flat_map (λ f,
    if field_omitempty f && isEmptyValue (field_value f) then []
    else [(field_name f, field_value f)]) fields).

(** The names of the members of an object, in order. *)
Definition json_keys (v : json) : list string :=
  match v with
  | JObject members => members.*1
  | _ => []
  end.

(** *** Strings on their way through [encoding/json]

    A Go string is any sequence of bytes. [json.Marshal] walks it with
    [utf8.DecodeRuneInString] and writes every byte that does not start a
    valid UTF-8 encoding as U+FFFD; [json.Unmarshal] does the same to the
    strings it reads. *)

Definition byte_of (a : Ascii.ascii) : Z := Z.of_N (Ascii.N_of_ascii a).

Definition between (lo hi : Z) (a : Ascii.ascii) : bool :=
  Z.leb lo (byte_of a) && Z.leb (byte_of a) hi.

(** A continuation byte, 0x80-0xBF. *)
Definition utf8_cont (a : Ascii.ascii) : bool := between 128 191 a.

(** The valid encodings of two, three and four bytes (the lead byte fixes
    the range of the second: no overlong form, no surrogate, nothing above
    U+10FFFF). *)
Definition utf8_two (b0 b1 : Ascii.ascii) : bool :=
  between 194 223 b0 && utf8_cont b1.

Definition utf8_three (b0 b1 b2 : Ascii.ascii) : bool :=
  (between 224 224 b0 && between 160 191 b1 ||
   between 225 236 b0 && utf8_cont b1 ||
   between 237 237 b0 && between 128 159 b1 ||
   between 238 239 b0 && utf8_cont b1) && utf8_cont b2.

Definition utf8_four (b0 b1 b2 b3 : Ascii.ascii) : bool :=
  (between 240 240 b0 && between 144 191 b1 ||
   between 241 243 b0 && utf8_cont b1 ||
   between 244 244 b0 && between 128 143 b1) && utf8_cont b2 && utf8_cont b3.

(** U+FFFD in UTF-8: EF BF BD. *)
Definition RuneError_utf8 (rest : string) : string :=
  String (Ascii.ascii_of_N 239) (String (Ascii.ascii_of_N 191) (String (Ascii.ascii_of_N 189) rest)).

(** The string as [encoding/json] carries it: valid encodings kept, every
    other byte replaced, one at a time, by U+FFFD. *)
Fixpoint toValidUTF8 (s : string) : string :=
  match s with
  | EmptyString => EmptyString
  | String b0 s1 =>
      if between 0 127 b0 then String b0 (toValidUTF8 s1)
      else
        match s1 with
        | String b1 s2 =>
            if utf8_two b0 b1 then String b0 (String b1 (toValidUTF8 s2))
            else
              match s2 with
              | String b2 s3 =>
                  if utf8_three b0 b1 b2
                  then String b0 (String b1 (String b2 (toValidUTF8 s3)))
                  else
                    match s3 with
                    | String b3 s4 =>
                        if utf8_four b0 b1 b2 b3
                        then String b0 (String b1 (String b2 (String b3 (toValidUTF8 s4))))
                        else RuneError_utf8 (toValidUTF8 s1)
                    | EmptyString => RuneError_utf8 (toValidUTF8 s1)
                    end
              | EmptyString => RuneError_utf8 (toValidUTF8 s1)
              end
        | EmptyString => RuneError_utf8 (toValidUTF8 s1)
        end
  end.

#[global] Arguments toValidUTF8 : simpl never.

(** The strings that [encoding/json] carries unchanged: valid UTF-8. *)
Definition valid_utf8 (s : string) : Prop := toValidUTF8 s = s.

(** A string field as [json.Marshal] writes it. *)
Definition marshal_string (s : string) : json := JString (toValidUTF8 s).

(** Lines 69-94 *)
Definition ClientStats_fields (c : ClientStats) : list field :=
  [ tagged "client_id" (marshal_string (ClientID c));
    tagged "hostname" (marshal_string (Hostname c));
    tagged "version" (marshal_string (Version c));
    tagged "remote_address" (marshal_string (RemoteAddress c));
    tagged "state" (JNumber (State c));
    tagged "ready_count" (JNumber (ReadyCount c));
    tagged "in_flight_count" (JNumber (ClientStats_InFlightCount c));
    tagged "message_count" (JNumber (ClientStats_MessageCount c));
    tagged "finish_count" (JNumber (FinishCount c));
    tagged "requeue_count" (JNumber (ClientStats_RequeueCount c));
    tagged "connect_ts" (JNumber (ConnectTime c));
    tagged "sample_rate" (JNumber (SampleRate c));
    tagged "deflate" (JBool (Deflate c));
    tagged "snappy" (JBool (Snappy c));
    tagged "user_agent" (marshal_string (UserAgent c));
    tagged_omitempty "authed" (JBool (Authed c));
    tagged_omitempty "auth_identity" (marshal_string (AuthIdentity c));
    tagged_omitempty "auth_identity_url" (marshal_string (AuthIdentityURL c));
    tagged "tls" (JBool (TLS c));
    tagged "tls_cipher_suite" (marshal_string (CipherSuite c));
    tagged "tls_version" (marshal_string (TLSVersion c));
    tagged "tls_negotiated_protocol" (marshal_string (TLSNegotiatedProtocol c));
    tagged "tls_negotiated_protocol_is_mutual" (JBool (TLSNegotiatedProtocolIsMutual c)) ].

Definition marshal_ClientStats (c : ClientStats) : json :=
  marshal_struct (ClientStats_fields c).

(** Lines 233-243 *)
Definition memStats_fields (m : memStats) : list field :=
  [ tagged "heap_objects" (JNumber (HeapObjects m));
    tagged "heap_idle_bytes" (JNumber (HeapIdleBytes m));
    tagged "heap_in_use_bytes" (JNumber (HeapInUseBytes m));
    tagged "heap_released_bytes" (JNumber (HeapReleasedBytes m));
    tagged "gc_pause_usec_100" (JNumber (GCPauseUsec100 m));
    tagged "gc_pause_usec_99" (JNumber (GCPauseUsec99 m));
    tagged "gc_pause_usec_95" (JNumber (GCPauseUsec95 m));
    tagged "next_gc_bytes" (JNumber (NextGCBytes m));
    tagged "gc_total_runs" (JNumber (GCTotalRuns m)) ].

Definition marshal_memStats (m : memStats) : json :=
  marshal_struct (memStats_fields m).

(** A pointer field: [null] when nil, else what it points to. *)
Definition marshal_ptr {A} (marshal : A → json) (p : option A) : json :=
  match p with
  | None => JNull
  | Some a => marshal a
  end.

Section marshal.
(** The JSON form of [quantile.Result] is that type's own business. *)
Variable marshal_Result : quantile_Result → json.

(** Lines 37-50 *)
Definition ChannelStats_fields (cs : ChannelStats) : list field :=
  [ tagged "channel_name" (marshal_string (ChannelName cs));
    tagged "depth" (JNumber (ChannelStats_Depth cs));
    tagged "backend_depth" (JNumber (ChannelStats_BackendDepth cs));
    tagged "in_flight_count" (JNumber (ChannelStats_InFlightCount cs));
    tagged "deferred_count" (JNumber (DeferredCount cs));
    tagged "message_count" (JNumber (ChannelStats_MessageCount cs));
    tagged "requeue_count" (JNumber (ChannelStats_RequeueCount cs));
    tagged "timeout_count" (JNumber (TimeoutCount cs));
    tagged "clients" (JArray (marshal_ClientStats <$> Clients cs));
    tagged "paused" (JBool (ChannelStats_Paused cs));
    tagged "e2e_processing_latency"
      (marshal_ptr marshal_Result (ChannelStats_E2eProcessingLatency cs)) ].

Definition marshal_ChannelStats (cs : ChannelStats) : json :=
  marshal_struct (ChannelStats_fields cs).

(** Lines 13-22 *)
Definition TopicStats_fields (ts : TopicStats) : list field :=
  [ tagged "topic_name" (marshal_string (TopicName ts));
    tagged "channels" (JArray (marshal_ChannelStats <$> Channels ts));
    tagged "depth" (JNumber (TopicStats_Depth ts));
    tagged "backend_depth" (JNumber (TopicStats_BackendDepth ts));
    tagged "message_count" (JNumber (TopicStats_MessageCount ts));
    tagged "paused" (JBool (TopicStats_Paused ts));
    tagged "e2e_processing_latency"
      (marshal_ptr marshal_Result (TopicStats_E2eProcessingLatency ts)) ].

Definition marshal_TopicStats (ts : TopicStats) : json :=
  marshal_struct (TopicStats_fields ts).
End marshal.

(** *** Reading the structs back *)

(** The member that [json.Unmarshal] leaves in a field: when a name occurs
    more than once, the last occurrence. Names are matched exactly; the
    decoder's fallback to a match that ignores case is left out. *)
Definition member (name : string) (members : list (string * json)) : option json :=
  fold_left (λ acc kv, if String.eqb kv.1 name then Some kv.2 else acc) members None.

(** The ranges of Go's sized integers. *)
Definition is_int32 (z : Z) : Prop := -2 ^ 31 ≤ z < 2 ^ 31.
Definition is_int64 (z : Z) : Prop := -2 ^ 63 ≤ z < 2 ^ 63.
Definition is_uint32 (z : Z) : Prop := 0 ≤ z < 2 ^ 32.
Definition is_uint64 (z : Z) : Prop := 0 ≤ z < 2 ^ 64.

Definition in_range (lo hi z : Z) : bool := Z.leb lo z && Z.ltb z hi.

(** Decoding into a field that starts at its zero value: a missing member
    and [null] leave it there, a value of another JSON type or a number out
    of the field's range is an error ([None]). *)
Definition decode_string (v : option json) : option string :=
  match v with
  | None | Some JNull => Some ""%string
  | Some (JString s) => Some (toValidUTF8 s)
  | Some _ => None
  end.

Definition decode_bool (v : option json) : option bool :=
  match v with
  | None | Some JNull => Some false
  | Some (JBool b) => Some b
  | Some _ => None
  end.

Definition decode_int (lo hi : Z) (v : option json) : option Z :=
  match v with
  | None | Some JNull => Some 0
  | Some (JNumber z) => if in_range lo hi z then Some z else None
  | Some _ => None
  end.

Definition decode_int32 := decode_int (-2 ^ 31) (2 ^ 31).
Definition decode_int64 := decode_int (-2 ^ 63) (2 ^ 63).
Definition decode_uint32 := decode_int 0 (2 ^ 32).
Definition decode_uint64 := decode_int 0 (2 ^ 64).

Definition decode_slice {A} (unmarshal : json → option A) (v : option json) : option (list A) :=
  match v with
  | None | Some JNull => Some []
  | Some (JArray elements) => mapM unmarshal elements
  | Some _ => None
  end.

Definition decode_ptr {A} (unmarshal : json → option A) (v : option json) : option (option A) :=
  match v with
  | None | Some JNull => Some None
  | Some v => Some <$> unmarshal v
  end.

Definition unmarshal_ClientStats (v : json) : option ClientStats :=
  match v with
  | JObject o =>
      ClientID ← decode_string (member "client_id" o);
      Hostname ← decode_string (member "hostname" o);
      Version ← decode_string (member "version" o);
      RemoteAddress ← decode_string (member "remote_address" o);
      State ← decode_int32 (member "state" o);
      ReadyCount ← decode_int64 (member "ready_count" o);
      InFlightCount ← decode_int64 (member "in_flight_count" o);
      MessageCount ← decode_uint64 (member "message_count" o);
      FinishCount ← decode_uint64 (member "finish_count" o);
      RequeueCount ← decode_uint64 (member "requeue_count" o);
      ConnectTime ← decode_int64 (member "connect_ts" o);
      SampleRate ← decode_int32 (member "sample_rate" o);
      Deflate ← decode_bool (member "deflate" o);
      Snappy ← decode_bool (member "snappy" o);
      UserAgent ← decode_string (member "user_agent" o);
      Authed ← decode_bool (member "authed" o);
      AuthIdentity ← decode_string (member "auth_identity" o);
      AuthIdentityURL ← decode_string (member "auth_identity_url" o);
      TLS ← decode_bool (member "tls" o);
      CipherSuite ← decode_string (member "tls_cipher_suite" o);
      TLSVersion ← decode_string (member "tls_version" o);
      TLSNegotiatedProtocol ← decode_string (member "tls_negotiated_protocol" o);
      TLSNegotiatedProtocolIsMutual ←
        decode_bool (member "tls_negotiated_protocol_is_mutual" o);
      Some {| ClientID := ClientID; Hostname := Hostname; Version := Version;
              RemoteAddress := RemoteAddress; State := State; ReadyCount := ReadyCount;
              ClientStats_InFlightCount := InFlightCount;
              ClientStats_MessageCount := MessageCount; FinishCount := FinishCount;
              ClientStats_RequeueCount := RequeueCount; ConnectTime := ConnectTime;
              SampleRate := SampleRate; Deflate := Deflate; Snappy := Snappy;
              UserAgent := UserAgent; Authed := Authed; AuthIdentity := AuthIdentity;
              AuthIdentityURL := AuthIdentityURL; TLS := TLS; CipherSuite := CipherSuite;
              TLSVersion := TLSVersion; TLSNegotiatedProtocol := TLSNegotiatedProtocol;
              TLSNegotiatedProtocolIsMutual := TLSNegotiatedProtocolIsMutual |}
  | _ => None
  end.

Definition unmarshal_memStats (v : json) : option memStats :=
  match v with
  | JObject o =>
      HeapObjects ← decode_uint64 (member "heap_objects" o);
      HeapIdleBytes ← decode_uint64 (member "heap_idle_bytes" o);
      HeapInUseBytes ← decode_uint64 (member "heap_in_use_bytes" o);
      HeapReleasedBytes ← decode_uint64 (member "heap_released_bytes" o);
      GCPauseUsec100 ← decode_uint64 (member "gc_pause_usec_100" o);
      GCPauseUsec99 ← decode_uint64 (member "gc_pause_usec_99" o);
      GCPauseUsec95 ← decode_uint64 (member "gc_pause_usec_95" o);
      NextGCBytes ← decode_uint64 (member "next_gc_bytes" o);
      GCTotalRuns ← decode_uint32 (member "gc_total_runs" o);
      Some {| HeapObjects := HeapObjects; HeapIdleBytes := HeapIdleBytes;
              HeapInUseBytes := HeapInUseBytes; HeapReleasedBytes := HeapReleasedBytes;
              GCPauseUsec100 := GCPauseUsec100; GCPauseUsec99 := GCPauseUsec99;
              GCPauseUsec95 := GCPauseUsec95; NextGCBytes := NextGCBytes;
              GCTotalRuns := GCTotalRuns |}
  | _ => None
  end.

Section unmarshal.
Variable unmarshal_Result : json → option quantile_Result.

Definition unmarshal_ChannelStats (v : json) : option ChannelStats :=
  match v with
  | JObject o =>
      ChannelName ← decode_string (member "channel_name" o);
      Depth ← decode_int64 (member "depth" o);
      BackendDepth ← decode_int64 (member "backend_depth" o);
      InFlightCount ← decode_uint64 (member "in_flight_count" o);
      DeferredCount ← decode_uint64 (member "deferred_count" o);
      MessageCount ← decode_uint64 (member "message_count" o);
      RequeueCount ← decode_uint64 (member "requeue_count" o);
      TimeoutCount ← decode_uint64 (member "timeout_count" o);
      Clients ← decode_slice unmarshal_ClientStats (member "clients" o);
      Paused ← decode_bool (member "paused" o);
      E2eProcessingLatency ←
        decode_ptr unmarshal_Result (member "e2e_processing_latency" o);
      Some {| ChannelName := ChannelName; ChannelStats_Depth := Depth;
              ChannelStats_BackendDepth := BackendDepth;
              ChannelStats_InFlightCount := InFlightCount;
              DeferredCount := DeferredCount; ChannelStats_MessageCount := MessageCount;
              ChannelStats_RequeueCount := RequeueCount; TimeoutCount := TimeoutCount;
              Clients := Clients; ChannelStats_Paused := Paused;
              ChannelStats_E2eProcessingLatency := E2eProcessingLatency |}
  | _ => None
  end.

Definition unmarshal_TopicStats (v : json) : option TopicStats :=
  match v with
  | JObject o =>
      TopicName ← decode_string (member "topic_name" o);
      Channels ← decode_slice unmarshal_ChannelStats (member "channels" o);
      Depth ← decode_int64 (member "depth" o);
      BackendDepth ← decode_int64 (member "backend_depth" o);
      MessageCount ← decode_uint64 (member "message_count" o);
      Paused ← decode_bool (member "paused" o);
      E2eProcessingLatency ←
        decode_ptr unmarshal_Result (member "e2e_processing_latency" o);
      Some {| TopicName := TopicName; Channels := Channels; TopicStats_Depth := Depth;
              TopicStats_BackendDepth := BackendDepth;
              TopicStats_MessageCount := MessageCount; TopicStats_Paused := Paused;
              TopicStats_E2eProcessingLatency := E2eProcessingLatency |}
  | _ => None
  end.
End unmarshal.

(** The values that are written and read back unchanged: every integer
    within the range of its Go type, every string valid UTF-8. *)
Definition wf_ClientStats (c : ClientStats) : Prop :=
  (is_int32 (State c) ∧ is_int64 (ReadyCount c) ∧ is_int64 (ClientStats_InFlightCount c) ∧
   is_uint64 (ClientStats_MessageCount c) ∧ is_uint64 (FinishCount c) ∧
   is_uint64 (ClientStats_RequeueCount c) ∧ is_int64 (ConnectTime c) ∧
   is_int32 (SampleRate c)) ∧
  valid_utf8 (ClientID c) ∧ valid_utf8 (Hostname c) ∧ valid_utf8 (Version c) ∧
  valid_utf8 (RemoteAddress c) ∧ valid_utf8 (UserAgent c) ∧
  valid_utf8 (AuthIdentity c) ∧ valid_utf8 (AuthIdentityURL c) ∧
  valid_utf8 (CipherSuite c) ∧ valid_utf8 (TLSVersion c) ∧
  valid_utf8 (TLSNegotiatedProtocol c).

Definition wf_ChannelStats (cs : ChannelStats) : Prop :=
  (is_int64 (ChannelStats_Depth cs) ∧ is_int64 (ChannelStats_BackendDepth cs) ∧
   is_uint64 (ChannelStats_InFlightCount cs) ∧ is_uint64 (DeferredCount cs) ∧
   is_uint64 (ChannelStats_MessageCount cs) ∧ is_uint64 (ChannelStats_RequeueCount cs) ∧
   is_uint64 (TimeoutCount cs)) ∧
  valid_utf8 (ChannelName cs) ∧ Forall wf_ClientStats (Clients cs).

Definition wf_TopicStats (ts : TopicStats) : Prop :=
  (is_int64 (TopicStats_Depth ts) ∧ is_int64 (TopicStats_BackendDepth ts) ∧
   is_uint64 (TopicStats_MessageCount ts)) ∧
  valid_utf8 (TopicName ts) ∧ Forall wf_ChannelStats (Channels ts).

Definition wf_memStats (m : memStats) : Prop :=
  is_uint64 (HeapObjects m) ∧ is_uint64 (HeapIdleBytes m) ∧ is_uint64 (HeapInUseBytes m) ∧
  is_uint64 (HeapReleasedBytes m) ∧ is_uint64 (GCPauseUsec100 m) ∧
  is_uint64 (GCPauseUsec99 m) ∧ is_uint64 (GCPauseUsec95 m) ∧ is_uint64 (NextGCBytes m) ∧
  is_uint32 (GCTotalRuns m).

(** Modelled from the spec: the JSON field names of the exposed interface,
    as the spec lists them. *)
Definition TopicStats_names : list string :=
  [ "topic_name"; "channels"; "depth"; "backend_depth"; "message_count"; "paused";
    "e2e_processing_latency" ]%string.

Definition ChannelStats_names : list string :=
  [ "channel_name"; "depth"; "backend_depth"; "in_flight_count"; "deferred_count";
    "message_count"; "requeue_count"; "timeout_count"; "clients"; "paused";
    "e2e_processing_latency" ]%string.

Definition ClientStats_names : list string :=
  [ "client_id"; "hostname"; "version"; "remote_address"; "state"; "ready_count";
    "in_flight_count"; "message_count"; "finish_count"; "requeue_count"; "connect_ts";
    "sample_rate"; "deflate"; "snappy"; "user_agent"; "authed"; "auth_identity";
    "auth_identity_url"; "tls"; "tls_cipher_suite"; "tls_version";
    "tls_negotiated_protocol"; "tls_negotiated_protocol_is_mutual" ]%string.

Definition MemSample_names : list string :=
  [ "heap_objects"; "heap_idle_bytes"; "heap_in_use_bytes"; "heap_released_bytes";
    "gc_pause_usec_100"; "gc_pause_usec_99"; "gc_pause_usec_95"; "next_gc_bytes";
    "gc_total_runs" ]%string.

(** The names of [ClientStats] that are written for [c]: the three tagged
    [omitempty] only when their field is not at its zero value. *)
Definition ClientStats_names_of (c : ClientStats) : list string :=
  filter (λ name,
    (name = "authed"%string → Authed c = true) ∧
    (name = "auth_identity"%string → AuthIdentity c ≠ ""%string) ∧
    (name = "auth_identity_url"%string → AuthIdentityURL c ≠ ""%string)) ClientStats_names.

(** A stand-in for the JSON form of [quantile.Result], to run the codecs
    on: the token in an object of its own. *)
Definition example_marshal_Result (r : quantile_Result) : json :=
  JObject [("count"%string, JNumber r)].

Definition example_unmarshal_Result (v : json) : option quantile_Result :=
  match v with
  | JObject [(_, JNumber r)] => Some r
  | _ => None
  end.

(** A client whose [ClientID] is the one byte 0xFF. *)
Definition example_ClientStats_0xFF : ClientStats :=
  example_ClientStats (String (Ascii.ascii_of_N 255) EmptyString).

Definition example_ChannelStats : ChannelStats :=
  NewChannelStats example_billing
    (Stats <$> [example_Client "b"; example_Client "a"]).

Definition example_TopicStats : TopicStats :=
  {| TopicName := "orders"; Channels := [example_ChannelStats];
     TopicStats_Depth := 4; TopicStats_BackendDepth := 0;
     TopicStats_MessageCount := 18446744073709551615; TopicStats_Paused := true;
     TopicStats_E2eProcessingLatency := Some 42 |}.

(** ** The sortable slice types (lines 96-142)

    [Topics], [TopicStatsS], [Channels] and [ChannelStatsS] with their
    [Len] and [Swap], and the wrappers [TopicsByName],
    [TopicStatsByTopicName], [ChannelsByName] and
    [ChannelStatsByChannelName] that add [Less]: the four implementations of
    [sort.Interface]. A slice is a list; an [int] index is a [Z]. *)

(** [s[i]]: an index outside [0, len(s)) panics ([None]). *)
Definition slice_index {A} (s : list A) (i : Z) : option A :=
  if Z.ltb i 0 then None else s !! Z.to_nat i.

(** [s[i], s[j] = s[j], s[i]]: both operands are read, then [s[i]] and
    [s[j]] are written. *)
Definition slice_swap {A} (s : list A) (i j : Z) : option (list A) :=
  si ← slice_index s i;
  sj ← slice_index s j;
  Some (<[Z.to_nat j := si]> (<[Z.to_nat i := sj]> s)).

(** Lines 98-99, 105 *)
Definition Topics_Len (t : list Topic) : Z := Z.of_nat (length t).

Definition Topics_Swap (t : list Topic) (i j : Z) : option (list Topic) :=
  slice_swap t i j.

Definition TopicsByName_Less (t : list Topic) (i j : Z) : option bool :=
  ti ← slice_index t i;
  tj ← slice_index t j;
  Some (String.ltb (Topic_name ti) (Topic_name tj)).

(** Lines 109-110, 116-118 *)
Definition TopicStatsS_Len (t : list TopicStats) : Z := Z.of_nat (length t).

Definition TopicStatsS_Swap (t : list TopicStats) (i j : Z) : option (list TopicStats) :=
  slice_swap t i j.

Definition TopicStatsByTopicName_Less_at (t : list TopicStats) (i j : Z) : option bool :=
  ti ← slice_index t i;
  tj ← slice_index t j;
  Some (String.ltb (TopicName ti) (TopicName tj)).

(** Lines 122-123, 129 *)
Definition Channels_Len (c : list Channel) : Z := Z.of_nat (length c).

Definition Channels_Swap (c : list Channel) (i j : Z) : option (list Channel) :=
  slice_swap c i j.

Definition ChannelsByName_Less (c : list Channel) (i j : Z) : option bool :=
  ci ← slice_index c i;
  cj ← slice_index c j;
  Some (String.ltb (Channel_name ci) (Channel_name cj)).

(** Lines 133-134, 140-142 *)
Definition ChannelStatsS_Len (c : list ChannelStats) : Z := Z.of_nat (length c).

Definition ChannelStatsS_Swap (c : list ChannelStats) (i j : Z) : option (list ChannelStats) :=
  slice_swap c i j.

Definition ChannelStatsByChannelName_Less_at (c : list ChannelStats) (i j : Z) : option bool :=
  ci ← slice_index c i;
  cj ← slice_index c j;
  Some (String.ltb (ChannelName ci) (ChannelName cj)).

(** The shape the four [Less] share: the entries at [i] and [j] compared
    by a name. *)
Definition Less_by_name {A} (name : A → string) (s : list A) (i j : Z) : option bool :=
  si ← slice_index s i;
  sj ← slice_index s j;
  Some (String.ltb (name si) (name sj)).

(** What [sort.Sort] needs of [Swap]: with both indices in range it
    exchanges the two entries and touches nothing else; it fails only on an
    index out of range. *)
Definition Swap_exchanges {A} (Len : list A → Z)
    (Swap : list A → Z → Z → option (list A)) : Prop :=
  ∀ s i j,
    (0 ≤ i < Len s → 0 ≤ j < Len s →
     ∃ s', Swap s i j = Some s' ∧ Len s' = Len s ∧ s' ≡ₚ s ∧
           slice_index s' i = slice_index s j ∧
           slice_index s' j = slice_index s i ∧
           ∀ k, k ≠ i → k ≠ j → slice_index s' k = slice_index s k) ∧
    (¬ (0 ≤ i < Len s ∧ 0 ≤ j < Len s) → Swap s i j = None).

(** Swapping the same two entries again restores the slice. *)
Definition Swap_involutive {A} (Swap : list A → Z → Z → option (list A)) : Prop :=
  ∀ s s' i j, Swap s i j = Some s' → Swap s' i j = Some s ∧ Swap s' j i = Some s.

(** What [sort.Interface] asks of [Less]: a strict weak ordering of the
    entries, defined exactly on the indices in range. *)
Definition Less_strict_weak_order {A} (Len : list A → Z)
    (Less : list A → Z → Z → option bool) : Prop :=
  ∀ s,
    (∀ i j, is_Some (Less s i j) ↔ 0 ≤ i < Len s ∧ 0 ≤ j < Len s) ∧
    (∀ i, 0 ≤ i < Len s → Less s i i = Some false) ∧
    (∀ i j, Less s i j = Some true → Less s j i = Some false) ∧
    (∀ i j k, Less s i j = Some true → Less s j k = Some true → Less s i k = Some true) ∧
    (∀ i j k,
       Less s i j = Some false → Less s j i = Some false →
       Less s j k = Some false → Less s k j = Some false →
       Less s i k = Some false ∧ Less s k i = Some false).

(** [sort.IsSorted] run on an implementation: no index [i] in
    [1, Len) has [Less(i, i-1)]. *)
Definition IsSorted_by {A} (Len : list A → Z) (Less : list A → Z → Z → option bool)
    (s : list A) : Prop :=
  ∀ i, 0 < i < Len s → Less s i (i - 1) = Some false.

(** ** What a result of [GetStats] holds *)

(** [cs] is the snapshot of the channel [c]: the counters of [c] and the
    [Stats()] of each of its clients, once each, in some order. *)
Definition snapshot_of_Channel (c : Channel) (cs : ChannelStats) : Prop :=
  cs = NewChannelStats c (Clients cs) ∧
  Clients cs ≡ₚ Stats <$> (map_to_list (clients c)).*2.

(** [ts] is the snapshot of the topic [t]: the counters of [t] and the
    snapshot of each of its channels, once each. *)
Definition snapshot_of_Topic (t : Topic) (ts : TopicStats) : Prop :=
  ts = NewTopicStats t (Channels ts) ∧
  ∃ chans, chans ≡ₚ (map_to_list (channelMap t)).*2 ∧
           Forall2 snapshot_of_Channel chans (Channels ts).

(** The broker states whose snapshots are written and read back
    unchanged: the counters within the ranges of their Go types, the names
    of the topics and channels valid UTF-8, and the [Stats()] of every
    client likewise. *)
Definition Channel_in_range (c : Channel) : Prop :=
  (is_int64 (Channel_Depth c) ∧ is_int64 (Channel_backend_Depth c) ∧
   is_uint64 (inFlightCount c) ∧ is_uint64 (deferredCount c) ∧
   is_uint64 (Channel_messageCount c) ∧ is_uint64 (requeueCount c) ∧
   is_uint64 (timeoutCount c)) ∧
  valid_utf8 (Channel_name c) ∧
  map_Forall (λ _ client, wf_ClientStats (Stats client)) (clients c).

Definition Topic_in_range (t : Topic) : Prop :=
  (is_int64 (Topic_Depth t) ∧ is_int64 (Topic_backend_Depth t) ∧
   is_uint64 (Topic_messageCount t)) ∧
  valid_utf8 (Topic_name t) ∧
  map_Forall (λ _ c, Channel_in_range c) (channelMap t).

Definition NSQD_in_range (n : NSQD) : Prop :=
  map_Forall (λ _ t, Topic_in_range t) (topicMap n).

(** [ms] with another content of the pause buffer. *)
Definition with_PauseNs (pauses : list Z) (ms : runtime_MemStats) : runtime_MemStats :=
  {| MemStats_HeapObjects := MemStats_HeapObjects ms; HeapIdle := HeapIdle ms;
     HeapInuse := HeapInuse ms; HeapReleased := HeapReleased ms; NextGC := NextGC ms;
     NumGC := NumGC ms; PauseNs := pauses |}.

(** A [TopicStats] cut down to its channels of the name [channel]; nothing
    when it has none. *)
Definition restrict_to_channel (channel : string) (ts : TopicStats) : option TopicStats :=
  match filter (λ cs, ChannelName cs = channel) (Channels ts) with
  | [] => None
  | chs => Some (with_Channels chs ts)
  end.

(** ** Facts about the order on names *)

Lemma string_ltb_false_le (a b : string) : String.ltb b a = false ↔ (a ≤ b)%string.
Proof.
  unfold String.le, String.ltb, String.leb.
  rewrite (String.compare_antisym a b).
  destruct (String.compare b a); simpl; naive_solver.
Qed.

Lemma string_ltb_asym (a b : string) : String.ltb a b = true → String.ltb b a = false.
Proof.
  unfold String.ltb. rewrite (String.compare_antisym b a).
  by destruct (String.compare a b).
Qed.

(** ** Facts about [sort.Sort] *)

Section sort_facts.
Context {A : Type} (Less : A → A → bool).
Hypothesis Less_asym : ∀ a b, Less a b = true → Less b a = false.

Lemma insert_sorted_perm (x : A) (l : list A) : insert_sorted Less x l ≡ₚ x :: l.
Proof.
  induction l as [|y l IH]; simpl; [done|].
  destruct (Less x y); [done|]. rewrite IH. apply Permutation_swap.
Qed.

Lemma insert_sorted_IsSorted (x : A) (l : list A) :
  sort_IsSorted Less l → sort_IsSorted Less (insert_sorted Less x l).
Proof.
  unfold sort_IsSorted. induction 1 as [|y l Hl IH Hhd]; simpl.
  - repeat constructor.
  - destruct (Less x y) eqn:Hxy.
    + constructor; [by constructor|]. constructor. by apply Less_asym.
    + constructor; [done|].
      destruct Hhd as [|z l Hz]; simpl.
      * by constructor.
      * destruct (Less x z); by constructor.
Qed.

Lemma insertionSort_Sort (l : list A) : sort_Sort Less l (insertionSort Less l).
Proof.
  unfold insertionSort.
  cut (∀ acc, sort_IsSorted Less acc →
         fold_left (λ acc x, insert_sorted Less x acc) l acc ≡ₚ acc ++ l ∧
         sort_IsSorted Less (fold_left (λ acc x, insert_sorted Less x acc) l acc)).
  { intros Hcut. destruct (Hcut []) as [Hp Hs]; [constructor|]. by split. }
  induction l as [|x l IH]; intros acc Hacc; simpl.
  - by rewrite app_nil_r.
  - destruct (IH (insert_sorted Less x acc)) as [Hp Hs].
    { by apply insert_sorted_IsSorted. }
    split; [|done]. rewrite Hp, insert_sorted_perm. simpl. apply Permutation_middle.
Qed.
End sort_facts.

Lemma sort_Sort_singleton {A} (Less : A → A → bool) (x : A) (l' : list A) :
  sort_Sort Less [x] l' → l' = [x].
Proof. intros [Hp _]. by apply Permutation_singleton_r. Qed.

Lemma sort_IsSorted_by_name {A} (key : A → string) (l : list A) :
  sort_IsSorted (λ a b, String.ltb (key a) (key b)) l → non_decreasing_by key l.
Proof.
  intros Hs. apply Sorted_StronglySorted.
  - intros a b c ??. by etrans.
  - induction Hs as [|a l Hl IH Hhd]; constructor; [done|].
    destruct Hhd; constructor. by apply string_ltb_false_le.
Qed.

(** ** Facts about the runs of [GetStats] *)

Lemma range_elem {K V} `{Countable K} (m : gmap K V) (visited : list V) (v : V) :
  range m visited → v ∈ visited → ∃ k, m !! k = Some v.
Proof.
  unfold range. intros Hp Hv. rewrite Hp in Hv.
  apply list_elem_of_fmap in Hv as [[k v'] [-> Hkv]].
  exists k. by apply elem_of_map_to_list.
Qed.

Lemma selected_elem {V} (name : string) (m : gmap string V) (vs : list V) (v : V) :
  selected name m (Some vs) → v ∈ vs → ∃ k, m !! k = Some v ∧ (name = "" ∨ name = k).
Proof.
  inversion 1 as [visited Hname Hr|val Hname Hval|]; subst; intros Hv.
  - destruct (range_elem _ _ _ Hr Hv) as [k Hk]. eauto.
  - apply list_elem_of_singleton in Hv as ->. eauto.
Qed.

Lemma selected_functional_None {V} (name : string) (m : gmap string V) (r : option (list V)) :
  name ≠ "" → m !! name = None → selected name m r → r = None.
Proof. intros Hne Hm. inversion 1; subst; congruence. Qed.

Lemma selected_functional_Some {V} (name : string) (m : gmap string V) (val : V)
    (r : option (list V)) :
  name ≠ "" → m !! name = Some val → selected name m r → r = Some [val].
Proof. intros Hne Hm. inversion 1; subst; congruence. Qed.

Lemma joined_elem {A B} (task : A → option B → Prop) (xs : list A) (out : list B) (y : B) :
  joined task xs out → y ∈ out → ∃ x, x ∈ xs ∧ task x (Some y).
Proof.
  intros (rs & HF & Hp) Hy. rewrite Hp in Hy.
  apply list_elem_of_omap in Hy as (r & Hr & Hry). simpl in Hry. subst r.
  apply list_elem_of_lookup in Hr as [i Hi].
  destruct (Forall2_lookup_r _ _ _ _ _ HF Hi) as (x & Hx & Hxy).
  exists x. split; [|done]. apply list_elem_of_lookup. eauto.
Qed.

Lemma joined_singleton {A B} (task : A → option B → Prop) (x : A) (out : list B) :
  joined task [x] out →
  (task x None ∧ out = []) ∨ (∃ y, task x (Some y) ∧ out = [y]).
Proof.
  intros (rs & HF & Hp).
  apply Forall2_cons_inv_l in HF as (r & rs' & Hr & HF & ->).
  apply Forall2_nil_inv_l in HF as ->.
  destruct r as [y|]; simpl in Hp.
  - right. exists y. split; [done|]. by apply Permutation_singleton_r.
  - left. split; [done|]. by apply Permutation_nil_r.
Qed.

Lemma omap_id_Some {B} (l : list B) : omap id (Some <$> l) = l.
Proof. induction l as [|y l IH]; csimpl; [done|]. by rewrite IH. Qed.

Lemma joined_seq {A B} (task : A → option B → Prop) (f : A → option B) (xs : list A) :
  (∀ x, task x (f x)) → joined task xs (omap f xs).
Proof.
  intros Hf. exists (f <$> xs). split.
  - induction xs; constructor; auto.
  - induction xs as [|x xs IH]; simpl; [done|].
    destruct (f x); simpl; by rewrite IH.
Qed.

Lemma selected_seq_selected {V} (name : string) (m : gmap string V) :
  selected name m (selected_seq name m).
Proof.
  unfold selected_seq. case_decide as Hname.
  - apply selected_all; [done|]. unfold range. reflexivity.
  - destruct (m !! name) as [val|] eqn:Hm; simpl.
    + by apply selected_one.
    + by apply selected_none.
Qed.

Lemma channelTask_seq_run (c : Channel) : channelTask c (channelTask_seq c).
Proof. apply channelTask_run. unfold range. reflexivity. Qed.

Lemma TopicStatsByTopicName_Less_asym (a b : TopicStats) :
  TopicStatsByTopicName_Less a b = true → TopicStatsByTopicName_Less b a = false.
Proof. apply string_ltb_asym. Qed.

Lemma ChannelStatsByChannelName_Less_asym (a b : ChannelStats) :
  ChannelStatsByChannelName_Less a b = true → ChannelStatsByChannelName_Less b a = false.
Proof. apply string_ltb_asym. Qed.

Lemma topicTask_seq_run (channel : string) (t : Topic) :
  topicTask channel t (topicTask_seq channel t).
Proof.
  unfold topicTask_seq.
  pose proof (selected_seq_selected channel (channelMap t)) as Hsel.
  destruct (selected_seq channel (channelMap t)) as [realChannels|]; simpl.
  - eapply topicTask_run; [exact Hsel| |].
    + exists (Some <$> (channelTask_seq <$> realChannels)). split.
      * clear Hsel. induction realChannels; constructor; [|done].
        eexists. split; [done|]. apply channelTask_seq_run.
      * by rewrite omap_id_Some.
    + apply insertionSort_Sort, ChannelStatsByChannelName_Less_asym.
  - by apply topicTask_return.
Qed.

(** The sequential schedule is a run: every call returns. *)
Lemma GetStats_seq_run (n : NSQD) (topic channel : string) :
  GetStats n topic channel (GetStats_seq n topic channel).
Proof.
  unfold GetStats_seq.
  pose proof (selected_seq_selected topic (topicMap n)) as Hsel.
  destruct (selected_seq topic (topicMap n)) as [realTopics|].
  - eapply GetStats_run; [exact Hsel| |].
    + apply joined_seq, topicTask_seq_run.
    + apply insertionSort_Sort, TopicStatsByTopicName_Less_asym.
  - by apply GetStats_return.
Qed.

Lemma topicTask_Channels_sorted (channel : string) (t : Topic) (ts : TopicStats) :
  topicTask channel t (Some ts) → non_decreasing_by ChannelName (Channels ts).
Proof.
  inversion 1 as [|realChannels channels sorted Hsel Hj [Hp Hs]]; subst; simpl.
  by apply sort_IsSorted_by_name.
Qed.

Lemma topicTask_TopicName (channel : string) (t : Topic) (ts : TopicStats) :
  topicTask channel t (Some ts) → TopicName ts = Topic_name t.
Proof. by inversion 1. Qed.

(** Every element of a result is what the goroutine of a topic of the map
    appended. *)
Lemma GetStats_elem (n : NSQD) (topic channel : string) (res : list TopicStats)
    (ts : TopicStats) :
  GetStats n topic channel res → ts ∈ res →
  ∃ k t, topicMap n !! k = Some t ∧ (topic = "" ∨ topic = k) ∧
         topicTask channel t (Some ts).
Proof.
  inversion 1 as [|realTopics topics sorted Hsel Hj [Hp Hs]]; subst; intros Hts.
  - by apply elem_of_nil in Hts.
  - rewrite Hp in Hts. destruct (joined_elem _ _ _ _ Hj Hts) as (t & Ht & Htask).
    destruct (selected_elem _ _ _ _ Hsel Ht) as (k & Hk & Hname). eauto.
Qed.

Lemma selected_None_Some {V} (name : string) (m : gmap string V) (vs : list V) :
  selected name m None → selected name m (Some vs) → False.
Proof.
  inversion 1 as [| |Hne Hm]; subst.
  inversion 1; subst; congruence.
Qed.

Lemma selected_empty_name {V} (m : gmap string V) (r : option (list V)) :
  selected "" m r → ∃ visited, r = Some visited ∧ range m visited.
Proof. inversion 1; subst; [eauto|done..]. Qed.

(** ** The sequential schedule on a broker with two topics *)

Example GetStats_seq_all :
  names_of (GetStats_seq example_NSQD "" "") =
  [ ("events", [("audit", [])]);
    ("orders", [("archive", []); ("billing", ["b"; "a"])]) ]%string.
Proof. vm_compute. reflexivity. Qed.

Example GetStats_seq_one_topic :
  names_of (GetStats_seq example_NSQD "orders" "") =
  [ ("orders", [("archive", []); ("billing", ["b"; "a"])]) ]%string.
Proof. vm_compute. reflexivity. Qed.

Example GetStats_seq_one_channel :
  names_of (GetStats_seq example_NSQD "" "billing") =
  [ ("orders", [("billing", ["b"; "a"])]) ]%string.
Proof. vm_compute. reflexivity. Qed.

Example GetStats_seq_no_such_channel :
  GetStats_seq example_NSQD "events" "billing" = [].
Proof. vm_compute. reflexivity. Qed.

Example GetStats_seq_no_such_topic :
  GetStats_seq example_NSQD "nonexistent" "" = [].
Proof. vm_compute. reflexivity. Qed.

(** ** Ordering of the output *)

(** C2: every result of [GetStats] is non-decreasing by [TopicName], and
    the [Channels] of each of its elements are non-decreasing by
    [ChannelName], both under byte-wise comparison of the names. *)
Theorem GetStats_sorted_by_name (n : NSQD) (topic channel : string) (res : list TopicStats) :
  GetStats n topic channel res →
  non_decreasing_by TopicName res ∧
  Forall (λ ts, non_decreasing_by ChannelName (Channels ts)) res.
Proof.
  intros Hrun. split.
  - inversion Hrun as [|realTopics topics sorted Hsel Hj [Hp Hs]]; subst.
    + constructor.
    + by apply sort_IsSorted_by_name.
  - apply Forall_forall. intros ts Hts.
    destruct (GetStats_elem _ _ _ _ _ Hrun Hts) as (k & t & _ & _ & Htask).
    by eapply topicTask_Channels_sorted.
Qed.

Lemma GetStats_sorted_by_name_witness :
  non_decreasing_by TopicName (GetStats_seq example_NSQD "" "") ∧
  Forall (λ ts, non_decreasing_by ChannelName (Channels ts))
    (GetStats_seq example_NSQD "" "").
Proof.
  apply (GetStats_sorted_by_name example_NSQD "" "").
  apply GetStats_seq_run.
Defined.

(** ** Filtering by topic *)

(** C3: for a topic filed under its name [t] in the topic map,
    [GetStats t ""] returns, and what it returns is one [TopicStats], whose
    [TopicName] is [t]. *)
Theorem GetStats_named_topic (n : NSQD) (t : string) (tp : Topic) :
  t ≠ "" → topicMap n !! t = Some tp → Topic_name tp = t →
  (∃ res, GetStats n t "" res) ∧
  ∀ res, GetStats n t "" res → ∃ ts, res = [ts] ∧ TopicName ts = t.
Proof.
  intros Hne Hm Hname. split.
  { eexists. apply GetStats_seq_run. }
  intros res Hrun.
  inversion Hrun as [Hsel|realTopics topics sorted Hsel Hj Hsort]; subst.
  - apply (selected_functional_Some _ _ _ _ Hne Hm) in Hsel. done.
  - apply (selected_functional_Some _ _ _ _ Hne Hm) in Hsel. simplify_eq.
    apply joined_singleton in Hj as [[Htask ->]|(ts & Htask & ->)].
    + inversion Htask as [Hsel|]; subst.
      apply selected_empty_name in Hsel as (? & ? & _). done.
    + apply sort_Sort_singleton in Hsort as ->.
      exists ts. split; [done|]. by apply topicTask_TopicName in Htask.
Qed.

Lemma GetStats_named_topic_witness :
  (∃ res, GetStats example_NSQD "orders" "" res) ∧
  ∀ res, GetStats example_NSQD "orders" "" res →
         ∃ ts, res = [ts] ∧ TopicName ts = "orders".
Proof.
  apply (GetStats_named_topic example_NSQD "orders" example_orders);
    [done | reflexivity | reflexivity].
Defined.

(** C4: for a non-empty topic filter that names no topic of the map,
    [GetStats] returns, and every run of it returns the empty sequence;
    there is no other outcome. *)
Theorem GetStats_absent_topic (n : NSQD) (topic channel : string) :
  topic ≠ "" → topicMap n !! topic = None →
  GetStats n topic channel [] ∧
  (∀ res, GetStats n topic channel res → res = []) ∧
  GetStats_seq n topic channel = [].
Proof.
  intros Hne Hm. split; [|split].
  - apply GetStats_return. by apply selected_none.
  - inversion 1 as [|realTopics topics sorted Hsel]; subst; [done|].
    by apply (selected_functional_None _ _ _ Hne Hm) in Hsel.
  - unfold GetStats_seq, selected_seq. rewrite decide_False by done. by rewrite Hm.
Qed.

Lemma GetStats_absent_topic_witness :
  GetStats example_NSQD "nonexistent" "billing" [] ∧
  (∀ res, GetStats example_NSQD "nonexistent" "billing" res → res = []) ∧
  GetStats_seq example_NSQD "nonexistent" "billing" = [].
Proof.
  apply (GetStats_absent_topic example_NSQD "nonexistent" "billing");
    [done | reflexivity].
Defined.

(** ** Filtering by channel *)

Lemma topicTask_contribution (channel : string) (t : Topic) (r : option TopicStats) :
  channel ≠ "" → topicTask channel t r → contribution channel t r.
Proof.
  intros Hne Htask. unfold contribution.
  destruct (channelMap t !! channel) as [c|] eqn:Hm.
  - inversion Htask as [Hsel|realChannels channels sorted Hsel Hj Hsort]; subst.
    + by apply (selected_functional_Some _ _ _ _ Hne Hm) in Hsel.
    + apply (selected_functional_Some _ _ _ _ Hne Hm) in Hsel. simplify_eq.
      apply joined_singleton in Hj as [[(cs & ? & _) _]|(cs & (cs' & ? & Hcs) & ->)];
        [done|]. simplify_eq.
      apply sort_Sort_singleton in Hsort as ->. eauto.
  - inversion Htask as [|realChannels channels sorted Hsel]; subst; [done|].
    by apply (selected_functional_None _ _ _ Hne Hm) in Hsel.
Qed.

(** C5: under a non-empty channel filter the result is made of what the
    selected topics contribute, and a topic contributes nothing when its
    channel map lacks the channel, and otherwise one [TopicStats] whose
    only channel is that one. *)
Theorem GetStats_channel_filter (n : NSQD) (topic channel : string) (res : list TopicStats) :
  channel ≠ "" → GetStats n topic channel res →
  ∃ realTopics rs,
    (selected topic (topicMap n) (Some realTopics) ∨
     selected topic (topicMap n) None ∧ realTopics = []) ∧
    Forall2 (contribution channel) realTopics rs ∧
    res ≡ₚ omap id rs.
Proof.
  intros Hne Hrun.
  inversion Hrun as [Hsel|realTopics topics sorted Hsel (rs & HF & Hp) [Hp' _]]; subst.
  - exists [], []. split; [by right|]. split; [constructor|done].
  - exists realTopics, rs. split; [by left|]. split.
    + eapply Forall2_impl; [exact HF|]. intros t r. by apply topicTask_contribution.
    + by rewrite Hp', Hp.
Qed.

Lemma GetStats_channel_filter_witness :
  ∃ realTopics rs,
    (selected "" (topicMap example_NSQD) (Some realTopics) ∨
     selected "" (topicMap example_NSQD) None ∧ realTopics = []) ∧
    Forall2 (contribution "billing") realTopics rs ∧
    GetStats_seq example_NSQD "" "billing" ≡ₚ omap id rs.
Proof.
  apply (GetStats_channel_filter example_NSQD "" "billing"); [done|].
  apply GetStats_seq_run.
Defined.

(** ** Two runs on one broker state *)

Section agree.
Context {A B : Type} (task : A → option B → Prop).
Context (key : B → string) (name : A → string) (E : B → B → Prop).
Hypothesis task_key : ∀ x y, task x (Some y) → key y = name x.
Hypothesis task_None_Some : ∀ x y, task x None → task x (Some y) → False.

Lemma joined_keys_sublist (xs : list A) (rs : list (option B)) :
  Forall2 task xs rs → key <$> omap id rs `sublist_of` name <$> xs.
Proof.
  induction 1 as [|x r xs rs Hxr HF IH]; csimpl; [done|].
  destruct r as [y|]; csimpl.
  - rewrite (task_key _ _ Hxr). by apply sublist_skip.
  - by apply sublist_cons.
Qed.

Lemma joined_keys_NoDup (xs : list A) (out : list B) :
  NoDup (name <$> xs) → joined task xs out → NoDup (key <$> out).
Proof.
  intros Hnd (rs & HF & Hp). rewrite Hp.
  eapply sublist_NoDup; [exact Hnd | by apply joined_keys_sublist].
Qed.

Lemma joined_match (xs1 xs2 : list A) (out1 out2 : list B) (y1 : B) :
  xs1 ≡ₚ xs2 → joined task xs1 out1 → joined task xs2 out2 → y1 ∈ out1 →
  ∃ x y2, x ∈ xs1 ∧ task x (Some y1) ∧ task x (Some y2) ∧ y2 ∈ out2.
Proof.
  intros Hxs Hj1 (rs2 & HF2 & Hp2) Hy1.
  destruct (joined_elem _ _ _ _ Hj1 Hy1) as (x & Hx & Hxy1).
  assert (x ∈ xs2) as Hx2 by (by rewrite <- Hxs).
  apply list_elem_of_lookup in Hx2 as [i Hi].
  destruct (Forall2_lookup_l _ _ _ _ _ HF2 Hi) as (r & Hr & Hxr).
  destruct r as [y2|]; [|by destruct (task_None_Some _ _ Hxr Hxy1)].
  exists x, y2. repeat split; try done.
  rewrite Hp2. apply list_elem_of_omap. exists (Some y2). split; [|done].
  apply list_elem_of_lookup. eauto.
Qed.

Lemma Forall2_by_keys (s1 s2 : list B) :
  key <$> s1 = key <$> s2 → NoDup (key <$> s2) →
  (∀ y1, y1 ∈ s1 → ∃ y2, y2 ∈ s2 ∧ key y1 = key y2 ∧ E y1 y2) →
  Forall2 E s1 s2.
Proof.
  revert s2. induction s1 as [|a s1 IH]; intros [|b s2] Hk Hnd HE;
    simplify_eq/=; [constructor|].
  apply NoDup_cons in Hnd as [Hb Hnd].
  constructor.
  - destruct (HE a) as (y2 & Hy2 & Hka & HEa); [left|].
    apply elem_of_cons in Hy2 as [->|Hy2]; [done|].
    destruct Hb. rewrite <- H, Hka. by apply list_elem_of_fmap_2.
  - apply IH; [done..|]. intros y1 Hy1.
    destruct (HE y1) as (y2 & Hy2 & Hk1 & HE1); [by right|].
    apply elem_of_cons in Hy2 as [->|Hy2]; [|eauto].
    destruct Hb. rewrite <- Hk1, <- H0. by apply list_elem_of_fmap_2.
Qed.

(** Two runs of one fan-out over the same elements, each output sorted by
    name, agree position by position once the names are pairwise distinct. *)
Lemma sorted_runs_agree (xs1 xs2 : list A) (out1 out2 s1 s2 : list B) :
  xs1 ≡ₚ xs2 → NoDup (name <$> xs1) →
  (∀ x y1 y2, x ∈ xs1 → task x (Some y1) → task x (Some y2) → E y1 y2) →
  joined task xs1 out1 → joined task xs2 out2 →
  sort_Sort (λ a b, String.ltb (key a) (key b)) out1 s1 →
  sort_Sort (λ a b, String.ltb (key a) (key b)) out2 s2 →
  Forall2 E s1 s2.
Proof.
  intros Hxs Hnd HE Hj1 Hj2 [Hp1 Hs1] [Hp2 Hs2].
  assert (NoDup (key <$> s1)) as Hnd1.
  { rewrite Hp1. by eapply joined_keys_NoDup. }
  assert (NoDup (key <$> s2)) as Hnd2.
  { rewrite Hp2. eapply joined_keys_NoDup; [|done]. by rewrite <- Hxs. }
  assert (∀ y1, y1 ∈ s1 → ∃ y2, y2 ∈ s2 ∧ key y1 = key y2 ∧ E y1 y2) as H12.
  { intros y1 Hy1. rewrite Hp1 in Hy1.
    destruct (joined_match _ _ _ _ _ Hxs Hj1 Hj2 Hy1) as (x & y2 & Hx & Ht1 & Ht2 & Hy2).
    exists y2. rewrite Hp2. split; [done|]. split; [|by eapply HE].
    by rewrite (task_key _ _ Ht1), (task_key _ _ Ht2). }
  assert (∀ y2, y2 ∈ s2 → ∃ y1, y1 ∈ s1 ∧ key y1 = key y2) as H21.
  { intros y2 Hy2. rewrite Hp2 in Hy2. symmetry in Hxs.
    destruct (joined_match _ _ _ _ _ Hxs Hj2 Hj1 Hy2) as (x & y1 & Hx & Ht2 & Ht1 & Hy1).
    exists y1. rewrite Hp1. split; [done|].
    by rewrite (task_key _ _ Ht1), (task_key _ _ Ht2). }
  apply Forall2_by_keys; [|done..].
  apply (StronglySorted_unique String.le).
  - apply (StronglySorted_fmap _ (λ a b, (key a ≤ key b)%string)); [done|].
    by apply sort_IsSorted_by_name.
  - apply (StronglySorted_fmap _ (λ a b, (key a ≤ key b)%string)); [done|].
    by apply sort_IsSorted_by_name.
  - apply NoDup_Permutation; [done..|]. intros k. split.
    + intros (y1 & -> & Hy1)%list_elem_of_fmap.
      destruct (H12 y1 Hy1) as (y2 & Hy2 & -> & _). by apply list_elem_of_fmap_2.
    + intros (y2 & -> & Hy2)%list_elem_of_fmap.
      destruct (H21 y2 Hy2) as (y1 & Hy1 & <-). by apply list_elem_of_fmap_2.
Qed.
End agree.

Lemma selected_agree {V} (name : string) (m : gmap string V) (xs1 xs2 : list V) :
  selected name m (Some xs1) → selected name m (Some xs2) → xs1 ≡ₚ xs2.
Proof.
  inversion 1 as [v1 Hn1 Hr1|val1 Hn1 Hm1|]; inversion 1 as [v2 Hn2 Hr2|val2 Hn2 Hm2|];
    subst; try done.
  - unfold range in *. by rewrite Hr1, Hr2.
  - by simplify_eq.
Qed.

Lemma selected_NoDup_names {V} (nm : V → string) (name : string) (m : gmap string V)
    (xs : list V) :
  keyed_by_name nm m → selected name m (Some xs) → NoDup (nm <$> xs).
Proof.
  intros Hkeyed. inversion 1 as [visited Hn Hr|val Hn Hm|]; subst.
  - unfold range in Hr. rewrite Hr.
    assert (nm <$> (map_to_list m).*2 = (map_to_list m).*1) as ->.
    { rewrite <- list_fmap_compose. apply Forall_fmap_ext_1, Forall_forall.
      intros [k v] Hkv%elem_of_map_to_list. simpl. by apply (Hkeyed k v). }
    apply NoDup_fst_map_to_list.
  - apply NoDup_singleton.
Qed.

Lemma channelTask_ChannelName (c : Channel) (cs : ChannelStats) :
  channelTask c cs → ChannelName cs = Channel_name c.
Proof. by inversion 1. Qed.

Lemma channelTask_agree (c : Channel) (cs1 cs2 : ChannelStats) :
  channelTask c cs1 → channelTask c cs2 → ChannelStats_equiv cs1 cs2.
Proof.
  inversion 1 as [v1 Hr1]; inversion 1 as [v2 Hr2]; subst.
  split; [done|]. simpl. unfold range in *. by rewrite Hr1, Hr2.
Qed.

Lemma topicTask_agree (channel : string) (t : Topic) (ts1 ts2 : TopicStats) :
  wf_Topic t → topicTask channel t (Some ts1) → topicTask channel t (Some ts2) →
  TopicStats_equiv ts1 ts2.
Proof.
  intros Hwf.
  inversion 1 as [|rc1 ch1 s1 Hsel1 Hj1 Hsort1];
    inversion 1 as [|rc2 ch2 s2 Hsel2 Hj2 Hsort2]; subst.
  split; [done|]. simpl.
  refine (sorted_runs_agree _ ChannelName Channel_name ChannelStats_equiv
            _ _ rc1 rc2 ch1 ch2 s1 s2 _ _ _ Hj1 Hj2 Hsort1 Hsort2).
  - intros c cs (cs' & ? & Hcs). simplify_eq. by apply channelTask_ChannelName.
  - intros c cs (? & ? & _). done.
  - by eapply selected_agree.
  - by eapply selected_NoDup_names.
  - intros c y1 y2 _ (? & ? & Hc1) (? & ? & Hc2). simplify_eq. by eapply channelTask_agree.
Qed.

Lemma topicTask_None_Some (channel : string) (t : Topic) (ts : TopicStats) :
  topicTask channel t None → topicTask channel t (Some ts) → False.
Proof.
  inversion 1 as [Hnone|]; inversion 1 as [|? ? ? Hsome]; subst.
  by eapply selected_None_Some.
Qed.

Lemma topicTask_Channels_elem (channel : string) (t : Topic) (ts : TopicStats)
    (cs : ChannelStats) :
  topicTask channel t (Some ts) → cs ∈ Channels ts →
  ∃ kc c, channelMap t !! kc = Some c ∧ channelTask c cs.
Proof.
  inversion 1 as [|realChannels channels sorted Hsel Hj [Hp _]]; subst; simpl.
  intros Hcs. rewrite Hp in Hcs.
  destruct (joined_elem _ _ _ _ Hj Hcs) as (c & Hc & cs' & ? & Htask). simplify_eq.
  destruct (selected_elem _ _ _ _ Hsel Hc) as (kc & Hkc & _). eauto.
Qed.

(** The run over a broker with one topic holding one channel, for any order
    in which the [range] over the channel's clients visits them. *)
Lemma GetStats_one_channel (n : NSQD) (t : Topic) (c : Channel) (visited : list Client) :
  range (topicMap n) [t] → range (channelMap t) [c] → range (clients c) visited →
  GetStats n "" "" [NewTopicStats t [NewChannelStats c (Stats <$> visited)]].
Proof.
  intros Ht Hc Hv.
  eapply GetStats_run with (realTopics := [t]).
  - by apply selected_all.
  - exists [Some (NewTopicStats t [NewChannelStats c (Stats <$> visited)])].
    split; [|done]. constructor; [|constructor].
    eapply topicTask_run with (realChannels := [c]).
    + by apply selected_all.
    + exists [Some (NewChannelStats c (Stats <$> visited))].
      split; [|done]. constructor; [|constructor].
      eexists. split; [done|]. by apply channelTask_run.
    + split; [done|]. repeat constructor.
  - split; [done|]. repeat constructor.
Qed.

Lemma small_result_run (visited : list Client) :
  range example_clients visited → GetStats small_NSQD "" "" (small_result visited).
Proof.
  intros Hv. apply GetStats_one_channel; [| |exact Hv]; unfold range; vm_compute; reflexivity.
Qed.

(** C1, as the claim states it, fails: on the broker with one topic, one
    channel and the clients "a" and "b", a run returns the clients as
    "b", "a", out of order by [ClientID] and by [Hostname] alike. *)
Lemma clients_not_ordered :
  ∃ res, GetStats small_NSQD "" "" res ∧
         ¬ ordered_at_every_level ClientID res ∧
         ¬ ordered_at_every_level Hostname res.
Proof.
  exists (small_result [example_Client "b"; example_Client "a"]).
  split; [|split].
  - apply small_result_run. unfold range. vm_compute.
    first [reflexivity | apply perm_swap].
  - intros H. apply Forall_inv in H as [_ H]. apply Forall_inv in H.
    apply StronglySorted_inv in H as [_ H]. apply Forall_inv in H. exact H.
  - intros H. apply Forall_inv in H as [_ H]. apply Forall_inv in H.
    apply StronglySorted_inv in H as [_ H]. apply Forall_inv in H. exact H.
Qed.

(** C1, amended: every result is ascending by [TopicName], the [Channels]
    of each element are ascending by [ChannelName], and the [Clients] of
    each [ChannelStats] are the snapshots of the clients of the channel of
    that name, in the order in which the [range] over the channel's client
    map visited them. *)
Theorem GetStats_order_by_level (n : NSQD) (topic channel : string) (res : list TopicStats) :
  GetStats n topic channel res →
  non_decreasing_by TopicName res ∧
  Forall (λ ts,
    non_decreasing_by ChannelName (Channels ts) ∧
    Forall (λ cs, ∃ kt t kc c,
      topicMap n !! kt = Some t ∧ channelMap t !! kc = Some c ∧
      TopicName ts = Topic_name t ∧ ChannelName cs = Channel_name c ∧
      clients_in_range_order c cs) (Channels ts)) res.
Proof.
  intros Hrun. split.
  - inversion Hrun as [|realTopics topics sorted Hsel Hj [Hp Hs]]; subst.
    + constructor.
    + by apply sort_IsSorted_by_name.
  - apply Forall_forall. intros ts Hts.
    destruct (GetStats_elem _ _ _ _ _ Hrun Hts) as (kt & t & Hkt & _ & Htask).
    split; [by eapply topicTask_Channels_sorted|].
    apply Forall_forall. intros cs Hcs.
    destruct (topicTask_Channels_elem _ _ _ _ Htask Hcs) as (kc & c & Hkc & Hc).
    exists kt, t, kc, c. repeat split; try done.
    + by eapply topicTask_TopicName.
    + by apply channelTask_ChannelName.
    + inversion Hc as [visited Hr]; subst. by exists visited.
Qed.

Lemma GetStats_order_by_level_witness :
  non_decreasing_by TopicName (GetStats_seq example_NSQD "" "") ∧
  Forall (λ ts,
    non_decreasing_by ChannelName (Channels ts) ∧
    Forall (λ cs, ∃ kt t kc c,
      topicMap example_NSQD !! kt = Some t ∧ channelMap t !! kc = Some c ∧
      TopicName ts = Topic_name t ∧ ChannelName cs = Channel_name c ∧
      clients_in_range_order c cs) (Channels ts)) (GetStats_seq example_NSQD "" "").
Proof.
  apply (GetStats_order_by_level example_NSQD "" "").
  apply GetStats_seq_run.
Defined.

(** C8, as the claim states it, fails: on one broker state (one topic, one
    channel, the clients "a" and "b") two runs return different sequences,
    one with the clients as "a", "b" and one with them as "b", "a". *)
Lemma two_runs_differ :
  ∃ res1 res2,
    GetStats small_NSQD "" "" res1 ∧ GetStats small_NSQD "" "" res2 ∧ res1 ≠ res2.
Proof.
  exists (small_result [example_Client "a"; example_Client "b"]),
         (small_result [example_Client "b"; example_Client "a"]).
  split; [|split].
  - apply small_result_run. unfold range. vm_compute.
    first [reflexivity | apply perm_swap].
  - apply small_result_run. unfold range. vm_compute.
    first [reflexivity | apply perm_swap].
  - intros Heq. discriminate Heq.
Qed.

(** C8, amended: on a broker state whose topics and channels are filed
    under their names, any two runs of [GetStats] with the same filters
    return sequences with the same topics in the same order, each with the
    same fields and the same channels in the same order, each channel with
    the same fields and the same clients; only the order of the clients
    within a channel may differ. *)
Theorem GetStats_runs_agree (n : NSQD) (topic channel : string) (res1 res2 : list TopicStats) :
  wf_NSQD n →
  GetStats n topic channel res1 → GetStats n topic channel res2 →
  Forall2 TopicStats_equiv res1 res2.
Proof.
  intros [Hkeyed Hwf].
  inversion 1 as [Hsel1|xs1 out1 s1 Hsel1 Hj1 Hsort1];
    inversion 1 as [Hsel2|xs2 out2 s2 Hsel2 Hj2 Hsort2]; subst.
  - constructor.
  - by destruct (selected_None_Some _ _ _ Hsel1 Hsel2).
  - by destruct (selected_None_Some _ _ _ Hsel2 Hsel1).
  - refine (sorted_runs_agree (topicTask channel) TopicName Topic_name TopicStats_equiv
              _ _ xs1 xs2 out1 out2 res1 res2 _ _ _ Hj1 Hj2 Hsort1 Hsort2).
    + intros t ts. apply topicTask_TopicName.
    + intros t ts. apply topicTask_None_Some.
    + by eapply selected_agree.
    + by eapply selected_NoDup_names.
    + intros t y1 y2 Ht. apply topicTask_agree.
      destruct (selected_elem _ _ _ _ Hsel1 Ht) as (k & Hk & _).
      by apply (Hwf k t).
Qed.

Lemma small_NSQD_wf : wf_NSQD small_NSQD.
Proof.
  unfold wf_NSQD, wf_Topic, keyed_by_name.
  split; apply (bool_decide_unpack _); vm_compute; exact I.
Defined.

Lemma GetStats_runs_agree_witness :
  Forall2 TopicStats_equiv
    (small_result [example_Client "a"; example_Client "b"])
    (small_result [example_Client "b"; example_Client "a"]).
Proof.
  apply (GetStats_runs_agree small_NSQD "" "");
    [ exact small_NSQD_wf
    | apply small_result_run; unfold range; vm_compute;
      first [reflexivity | apply perm_swap]
    | apply small_result_run; unfold range; vm_compute;
      first [reflexivity | apply perm_swap] ].
Defined.

(** ** The memory sampler *)

Example percentile_median : percentile 50 [1; 2; 3; 4; 5] 5 = 3.
Proof. reflexivity. Qed.

Example getMemStats_example :
  getMemStats percentile example_MemStats =
  {| HeapObjects := 1200; HeapIdleBytes := 65536; HeapInUseBytes := 131072;
     HeapReleasedBytes := 0; GCPauseUsec100 := 3; GCPauseUsec99 := 3; GCPauseUsec95 := 3;
     NextGCBytes := 4194304; GCTotalRuns := 3 |}.
Proof. vm_compute. reflexivity. Qed.

Example gcPauses_example : gcPauses example_MemStats = [1000; 2500; 3000].
Proof. vm_compute. reflexivity. Qed.

Lemma nearest_rank_100 (n : Z) : 0 < n → nearest_rank 100 n = n - 1.
Proof.
  intros Hn. unfold nearest_rank.
  assert (Qceiling (100 / 100 * inject_Z n) = n) as ->.
  { rewrite <- (Qceiling_Z n) at 2. apply Qceiling_comp.
    unfold Qeq. cbn -[Z.mul]. lia. }
  lia.
Qed.

(** C6: [percentile] follows the nearest-rank rule: it is 0 on a sample of
    size 0; on a sample of size [n] it is the element at index
    [ceil(p/100 * n) - 1] clamped into [0, n-1], an index of the sample,
    which for p = 100 is the last one; and on the sorted sample
    1, 2, 3, 4, 5 each of p = 100, 99, 95 selects index 4 and yields 5. *)
Theorem percentile_nearest_rank :
  (∀ perc arr, percentile perc arr 0 = 0) ∧
  (∀ perc arr n, n ≠ 0 →
     percentile perc arr n =
     nth (Z.to_nat (Z.max 0 (Z.min (n - 1) (Qceiling (perc / 100 * inject_Z n) - 1)))) arr 0) ∧
  (∀ perc n, 0 < n → 0 ≤ nearest_rank perc n ≤ n - 1) ∧
  (∀ arr n, 0 < n → percentile 100 arr n = nth (Z.to_nat (n - 1)) arr 0) ∧
  (nearest_rank 100 5 = 4 ∧ nearest_rank 99 5 = 4 ∧ nearest_rank 95 5 = 4) ∧
  (percentile 100 [1; 2; 3; 4; 5] 5 = 5 ∧
   percentile 99 [1; 2; 3; 4; 5] 5 = 5 ∧
   percentile 95 [1; 2; 3; 4; 5] 5 = 5).
Proof.
  split; [|split; [|split; [|split; [|split]]]].
  - reflexivity.
  - intros perc arr n Hn. unfold percentile, nearest_rank.
    destruct (Z.eqb_spec n 0); [done|reflexivity].
  - intros perc n Hn. unfold nearest_rank. lia.
  - intros arr n Hn. unfold percentile.
    destruct (Z.eqb_spec n 0); [lia|]. by rewrite nearest_rank_100.
  - repeat split; reflexivity.
  - repeat split; reflexivity.
Qed.

Lemma Uint64Slice_Less_asym (a b : Z) :
  Uint64Slice_Less a b = true → Uint64Slice_Less b a = false.
Proof. unfold Uint64Slice_Less. lia. Qed.

Lemma Uint64Slice_sorted (l : list Z) :
  sort_IsSorted Uint64Slice_Less l → StronglySorted Z.le l.
Proof.
  intros Hs. apply Sorted_StronglySorted; [intros a b c; lia|].
  induction Hs as [|a l Hl IH Hhd]; constructor; [done|].
  destruct Hhd as [|b l Hb]; constructor. unfold Uint64Slice_Less in Hb. lia.
Qed.

(** Every run of [sort.Sort] on [uint64] values ends in the same slice. *)
Lemma Uint64Slice_Sort_unique (l s : list Z) :
  sort_Sort Uint64Slice_Less l s → s = insertionSort Uint64Slice_Less l.
Proof.
  intros [Hp Hs].
  destruct (insertionSort_Sort _ Uint64Slice_Less_asym l) as [Hp' Hs'].
  apply (StronglySorted_unique Z.le); [by apply Uint64Slice_sorted..|].
  by rewrite Hp, Hp'.
Qed.

(** C7: [getMemStats] takes [min(NumGC, len(PauseNs))] pause durations,
    the first that many entries of the runtime's buffer, sorts them
    ascending, and reports in [gc_pause_usec_100/99/95] the percentiles of
    the sorted sample divided by 1000 with truncation. *)
Theorem getMemStats_pauses (pct : Q → list Z → Z → Z) (ms : runtime_MemStats) :
  0 ≤ NumGC ms →
  Z.of_nat (length (gcPauses ms)) = Z.min (NumGC ms) (Z.of_nat (length (PauseNs ms))) ∧
  gcPauses ms ≡ₚ take (length (gcPauses ms)) (PauseNs ms) ∧
  StronglySorted Z.le (gcPauses ms) ∧
  GCPauseUsec100 (getMemStats pct ms) =
    Z.quot (pct 100%Q (gcPauses ms) (Z.of_nat (length (gcPauses ms)))) 1000 ∧
  GCPauseUsec99 (getMemStats pct ms) =
    Z.quot (pct 99%Q (gcPauses ms) (Z.of_nat (length (gcPauses ms)))) 1000 ∧
  GCPauseUsec95 (getMemStats pct ms) =
    Z.quot (pct 95%Q (gcPauses ms) (Z.of_nat (length (gcPauses ms)))) 1000.
Proof.
  intros Hnum.
  pose proof (insertionSort_Sort _ Uint64Slice_Less_asym
    (take (Z.to_nat (if Z.ltb (NumGC ms) (Z.of_nat (length (PauseNs ms)))
                     then NumGC ms else Z.of_nat (length (PauseNs ms))))
          (PauseNs ms))) as [Hp Hs].
  fold (gcPauses ms) in Hp, Hs.
  assert (Z.of_nat (length (gcPauses ms)) =
          Z.min (NumGC ms) (Z.of_nat (length (PauseNs ms)))) as Hlen.
  { rewrite Hp, length_take. destruct (Z.ltb_spec (NumGC ms) (Z.of_nat (length (PauseNs ms)))); lia. }
  split; [done|]. split; [|split; [by apply Uint64Slice_sorted|done]].
  rewrite Hp at 1. f_equiv.
  destruct (Z.ltb_spec (NumGC ms) (Z.of_nat (length (PauseNs ms)))); lia.
Qed.

Lemma getMemStats_pauses_witness :
  Z.of_nat (length (gcPauses example_MemStats)) =
    Z.min (NumGC example_MemStats) (Z.of_nat (length (PauseNs example_MemStats))) ∧
  gcPauses example_MemStats ≡ₚ
    take (length (gcPauses example_MemStats)) (PauseNs example_MemStats) ∧
  StronglySorted Z.le (gcPauses example_MemStats) ∧
  GCPauseUsec100 (getMemStats percentile example_MemStats) =
    Z.quot (percentile 100%Q (gcPauses example_MemStats)
              (Z.of_nat (length (gcPauses example_MemStats)))) 1000 ∧
  GCPauseUsec99 (getMemStats percentile example_MemStats) =
    Z.quot (percentile 99%Q (gcPauses example_MemStats)
              (Z.of_nat (length (gcPauses example_MemStats)))) 1000 ∧
  GCPauseUsec95 (getMemStats percentile example_MemStats) =
    Z.quot (percentile 95%Q (gcPauses example_MemStats)
              (Z.of_nat (length (gcPauses example_MemStats)))) 1000.
Proof.
  apply (getMemStats_pauses percentile example_MemStats). simpl. lia.
Defined.

(** ** The JSON shape *)

Lemma in_range_true (lo hi z : Z) : lo ≤ z < hi → in_range lo hi z = true.
Proof.
  intros Hz. unfold in_range.
  destruct (Z.leb_spec lo z); [|lia]. destruct (Z.ltb_spec z hi); [done|lia].
Qed.

Lemma in_range_int32 (z : Z) : is_int32 z → in_range (-2 ^ 31) (2 ^ 31) z = true.
Proof. apply in_range_true. Qed.

Lemma in_range_int64 (z : Z) : is_int64 z → in_range (-2 ^ 63) (2 ^ 63) z = true.
Proof. apply in_range_true. Qed.

Lemma in_range_uint32 (z : Z) : is_uint32 z → in_range 0 (2 ^ 32) z = true.
Proof. apply in_range_true. Qed.

Lemma in_range_uint64 (z : Z) : is_uint64 z → in_range 0 (2 ^ 64) z = true.
Proof. apply in_range_true. Qed.

Lemma mapM_roundtrip {A} (marshal : A → json) (unmarshal : json → option A) (l : list A) :
  Forall (λ a, unmarshal (marshal a) = Some a) l →
  mapM unmarshal (marshal <$> l) = Some l.
Proof.
  intros Hl. apply mapM_Some. apply Forall2_fmap_l.
  induction Hl; constructor; done.
Qed.

Lemma toValidUTF8_eq_empty (s : string) : toValidUTF8 s = "" ↔ s = "".
Proof.
  split; [|by intros ->]. destruct s as [|b0 s1]; [done|].
  unfold toValidUTF8; fold toValidUTF8. unfold RuneError_utf8.
  repeat case_match; done.
Qed.

(** Reading the members of a written struct back: the lookups compute,
    the range checks follow from the fields' types, the strings are
    carried unchanged when they are valid UTF-8. *)
Ltac read_back :=
  repeat (progress
    (simpl;
     repeat first
       [ rewrite in_range_int32 by done | rewrite in_range_int64 by done
       | rewrite in_range_uint32 by done | rewrite in_range_uint64 by done
       | match goal with H : toValidUTF8 ?s = ?s |- _ => rewrite H end ])).

Lemma toValidUTF8_nil : toValidUTF8 "" = ""%string.
Proof. reflexivity. Qed.

(** Whether a string field is left out by [omitempty] does not depend on
    the coercion: only the empty string is written empty. *)
Ltac case_written_empty :=
  rewrite ?toValidUTF8_nil;
  repeat match goal with
  | |- context [toValidUTF8 (String ?a ?s)] =>
      let E := fresh "E" in
      destruct (toValidUTF8 (String a s)) eqn:E;
      [by apply (proj1 (toValidUTF8_eq_empty _)) in E|]
  end.

Lemma ClientStats_roundtrip (c : ClientStats) :
  wf_ClientStats c → unmarshal_ClientStats (marshal_ClientStats c) = Some c.
Proof.
  intros ((? & ? & ? & ? & ? & ? & ? & ?) & ? & ? & ? & ? & ? & ? & ? & ? & ? & ?).
  destruct c as [? ? ? ? ? ? ? ? ? ? ? ? ? ? ? authed identity url ? ? ? ? ?].
  unfold valid_utf8 in *. simpl in * |-.
  destruct authed, identity as [|? ?], url as [|? ?]; read_back; reflexivity.
Qed.

Lemma memStats_roundtrip (m : memStats) :
  wf_memStats m → unmarshal_memStats (marshal_memStats m) = Some m.
Proof.
  intros (? & ? & ? & ? & ? & ? & ? & ? & ?).
  destruct m. simpl in * |-.
  read_back. reflexivity.
Qed.

Section json_facts.
Context (marshal_Result : quantile_Result → json).
Context (unmarshal_Result : json → option quantile_Result).
Hypothesis Result_roundtrip : ∀ r, unmarshal_Result (marshal_Result r) = Some r.
Hypothesis Result_not_null : ∀ r, marshal_Result r ≠ JNull.

Lemma decode_ptr_ok (p : option quantile_Result) :
  decode_ptr unmarshal_Result (Some (marshal_ptr marshal_Result p)) = Some p.
Proof.
  destruct p as [r|]; simpl; [|done].
  pose proof (Result_not_null r) as Hnn. pose proof (Result_roundtrip r) as Hrt.
  destruct (marshal_Result r); [done|by rewrite Hrt..].
Qed.

Lemma ChannelStats_roundtrip (cs : ChannelStats) :
  wf_ChannelStats cs →
  unmarshal_ChannelStats unmarshal_Result (marshal_ChannelStats marshal_Result cs) = Some cs.
Proof.
  intros ((? & ? & ? & ? & ? & ? & ?) & ? & Hcl).
  destruct cs as [? ? ? ? ? ? ? ? cl ? e2e]. unfold valid_utf8 in *. simpl in * |-.
  read_back.
  rewrite (mapM_roundtrip marshal_ClientStats unmarshal_ClientStats).
  - pose proof (decode_ptr_ok e2e) as Hptr. simpl in Hptr. by rewrite Hptr.
  - eapply Forall_impl; [exact Hcl|]. apply ClientStats_roundtrip.
Qed.

Lemma TopicStats_roundtrip (ts : TopicStats) :
  wf_TopicStats ts →
  unmarshal_TopicStats unmarshal_Result (marshal_TopicStats marshal_Result ts) = Some ts.
Proof.
  intros ((? & ? & ?) & ? & Hch).
  destruct ts as [? chs ? ? ? ? e2e]. unfold valid_utf8 in *. simpl in * |-.
  read_back.
  rewrite (mapM_roundtrip (marshal_ChannelStats marshal_Result)
             (unmarshal_ChannelStats unmarshal_Result)).
  - read_back. pose proof (decode_ptr_ok e2e) as Hptr. simpl in Hptr. by rewrite Hptr.
  - eapply Forall_impl; [exact Hch|]. apply ChannelStats_roundtrip.
Qed.
End json_facts.

Lemma ClientStats_keys (c : ClientStats) :
  json_keys (marshal_ClientStats c) = ClientStats_names_of c.
Proof.
  destruct c as [? ? ? ? ? ? ? ? ? ? ? ? ? ? ? authed identity url ? ? ? ? ?].
  destruct authed, identity as [|? ?], url as [|? ?]; simpl;
    case_written_empty; reflexivity.
Qed.

Lemma example_Result_roundtrip (r : quantile_Result) :
  example_unmarshal_Result (example_marshal_Result r) = Some r.
Proof. reflexivity. Qed.

Lemma example_Result_not_null (r : quantile_Result) : example_marshal_Result r ≠ JNull.
Proof. discriminate. Qed.

Example marshal_ClientStats_keys_example :
  json_keys (marshal_ClientStats (example_ClientStats "a")) =
  [ "client_id"; "hostname"; "version"; "remote_address"; "state"; "ready_count";
    "in_flight_count"; "message_count"; "finish_count"; "requeue_count"; "connect_ts";
    "sample_rate"; "deflate"; "snappy"; "user_agent"; "tls"; "tls_cipher_suite";
    "tls_version"; "tls_negotiated_protocol"; "tls_negotiated_protocol_is_mutual" ]%string.
Proof. reflexivity. Qed.

(** What [encoding/json] does to strings: ASCII, a two-byte and a
    four-byte encoding and U+FFFD itself are kept; a stray 0xFF, an overlong
    form, a surrogate and a truncated encoding are replaced byte by byte. *)
Example toValidUTF8_examples :
  toValidUTF8 "orders" = "orders"%string ∧
  toValidUTF8 (String (Ascii.ascii_of_N 195) (String (Ascii.ascii_of_N 169) "")) =
    String (Ascii.ascii_of_N 195) (String (Ascii.ascii_of_N 169) "") ∧
  toValidUTF8 (String (Ascii.ascii_of_N 240) (String (Ascii.ascii_of_N 159)
                 (String (Ascii.ascii_of_N 152) (String (Ascii.ascii_of_N 128) "")))) =
    String (Ascii.ascii_of_N 240) (String (Ascii.ascii_of_N 159)
      (String (Ascii.ascii_of_N 152) (String (Ascii.ascii_of_N 128) ""))) ∧
  toValidUTF8 (RuneError_utf8 "") = RuneError_utf8 "" ∧
  toValidUTF8 (String (Ascii.ascii_of_N 255) "") = RuneError_utf8 "" ∧
  toValidUTF8 (String (Ascii.ascii_of_N 192) (String (Ascii.ascii_of_N 128) "")) =
    RuneError_utf8 (RuneError_utf8 "") ∧
  toValidUTF8 (String (Ascii.ascii_of_N 237) (String (Ascii.ascii_of_N 160)
                 (String (Ascii.ascii_of_N 128) ""))) =
    RuneError_utf8 (RuneError_utf8 (RuneError_utf8 "")) ∧
  toValidUTF8 (String (Ascii.ascii_of_N 226) (String (Ascii.ascii_of_N 130) "")) =
    RuneError_utf8 (RuneError_utf8 "").
Proof. repeat split; reflexivity. Qed.

(** A string of bytes below 0x80 is valid UTF-8. *)
Lemma valid_utf8_ascii (s : string) :
  (∀ a, a ∈ String.list_ascii_of_string s → between 0 127 a = true) → valid_utf8 s.
Proof.
  unfold valid_utf8. induction s as [|a s IH]; intros Hs; [done|].
  unfold toValidUTF8; fold toValidUTF8.
  rewrite (Hs a) by (simpl; left). rewrite IH; [done|].
  intros b Hb. apply Hs. simpl. by right.
Qed.

(** A [ClientID] that is not valid UTF-8 is not read back: the one byte
    0xFF comes back as U+FFFD, and is written like the one byte 0xFE. *)
Example ClientStats_0xFF_read_back :
  unmarshal_ClientStats (marshal_ClientStats example_ClientStats_0xFF) =
    Some (example_ClientStats (RuneError_utf8 "")) ∧
  marshal_ClientStats example_ClientStats_0xFF =
    marshal_ClientStats (example_ClientStats (String (Ascii.ascii_of_N 254) "")).
Proof. split; vm_compute; reflexivity. Qed.

(** C9, as the claim states it, fails: a [ClientStats] whose [Authed] is
    false and whose [AuthIdentity] and [AuthIdentityURL] are empty is
    written without the names authed, auth_identity and auth_identity_url
    of the spec's list. *)
Lemma ClientStats_names_not_all_written :
  json_keys (marshal_ClientStats (example_ClientStats "a")) ≠ ClientStats_names.
Proof. discriminate. Qed.

(** C9, amended: a [TopicStats], a [ChannelStats] and a [memStats] are
    written with exactly the JSON names of the spec's list, in its order; a
    [ClientStats] with the names of its list except that authed,
    auth_identity and auth_identity_url are written only when their field is
    not at its zero value; reading back what was written gives the value
    written, field by field, when its integers are within the ranges of
    their Go types and its strings are valid UTF-8 ([encoding/json] writes
    any other byte as U+FFFD), wherever [quantile.Result] reads back its
    own JSON form. *)
Theorem json_names_and_roundtrip
    (marshal_Result : quantile_Result → json)
    (unmarshal_Result : json → option quantile_Result)
    (ts : TopicStats) (cs : ChannelStats) (c : ClientStats) (m : memStats) :
  (∀ r, unmarshal_Result (marshal_Result r) = Some r) →
  (∀ r, marshal_Result r ≠ JNull) →
  wf_TopicStats ts → wf_ChannelStats cs → wf_ClientStats c → wf_memStats m →
  (json_keys (marshal_TopicStats marshal_Result ts) = TopicStats_names ∧
   unmarshal_TopicStats unmarshal_Result (marshal_TopicStats marshal_Result ts) = Some ts) ∧
  (json_keys (marshal_ChannelStats marshal_Result cs) = ChannelStats_names ∧
   unmarshal_ChannelStats unmarshal_Result (marshal_ChannelStats marshal_Result cs) = Some cs) ∧
  (json_keys (marshal_ClientStats c) = ClientStats_names_of c ∧
   unmarshal_ClientStats (marshal_ClientStats c) = Some c) ∧
  (json_keys (marshal_memStats m) = MemSample_names ∧
   unmarshal_memStats (marshal_memStats m) = Some m).
Proof.
  intros Hrt Hnn Hts Hcs Hc Hm. repeat split.
  - by apply TopicStats_roundtrip.
  - by apply ChannelStats_roundtrip.
  - apply ClientStats_keys.
  - by apply ClientStats_roundtrip.
  - by apply memStats_roundtrip.
Qed.

Lemma json_names_and_roundtrip_witness :
  (json_keys (marshal_TopicStats example_marshal_Result example_TopicStats) =
     TopicStats_names ∧
   unmarshal_TopicStats example_unmarshal_Result
     (marshal_TopicStats example_marshal_Result example_TopicStats) =
     Some example_TopicStats) ∧
  (json_keys (marshal_ChannelStats example_marshal_Result example_ChannelStats) =
     ChannelStats_names ∧
   unmarshal_ChannelStats example_unmarshal_Result
     (marshal_ChannelStats example_marshal_Result example_ChannelStats) =
     Some example_ChannelStats) ∧
  (json_keys (marshal_ClientStats (example_ClientStats "a")) =
     ClientStats_names_of (example_ClientStats "a") ∧
   unmarshal_ClientStats (marshal_ClientStats (example_ClientStats "a")) =
     Some (example_ClientStats "a")) ∧
  (json_keys (marshal_memStats (getMemStats percentile example_MemStats)) =
     MemSample_names ∧
   unmarshal_memStats (marshal_memStats (getMemStats percentile example_MemStats)) =
     Some (getMemStats percentile example_MemStats)).
Proof.
  apply (json_names_and_roundtrip example_marshal_Result example_unmarshal_Result
           example_TopicStats example_ChannelStats (example_ClientStats "a")
           (getMemStats percentile example_MemStats));
    [ exact example_Result_roundtrip | exact example_Result_not_null | .. ];
    repeat first [split | apply Forall_cons | apply Forall_nil];
    vm_compute; first [discriminate | reflexivity].
Defined.


Lemma ClientStats_names_of_elem (c : ClientStats) (name : string) :
  name ∈ ClientStats_names_of c ↔
  name ∈ ClientStats_names ∧
  (name = "authed"%string → Authed c = true) ∧
  (name = "auth_identity"%string → AuthIdentity c ≠ ""%string) ∧
  (name = "auth_identity_url"%string → AuthIdentityURL c ≠ ""%string).
Proof. unfold ClientStats_names_of. rewrite list_elem_of_filter. tauto. Qed.

(** C10: of the fields of [ClientStats] exactly authed, auth_identity and
    auth_identity_url are tagged [omitempty]; each of the three is left out
    of the written object exactly when its field is false or the empty
    string, and every other name of the struct is written whatever the
    value. *)
Theorem ClientStats_omitempty (c : ClientStats) :
  (λ f, (field_name f, field_omitempty f)) <$> ClientStats_fields c =
    (λ name, (name, bool_decide
                      (name ∈ ["authed"; "auth_identity"; "auth_identity_url"]%string)))
      <$> ClientStats_names ∧
  ("authed"%string ∈ json_keys (marshal_ClientStats c) ↔ Authed c = true) ∧
  ("auth_identity"%string ∈ json_keys (marshal_ClientStats c) ↔
     AuthIdentity c ≠ ""%string) ∧
  ("auth_identity_url"%string ∈ json_keys (marshal_ClientStats c) ↔
     AuthIdentityURL c ≠ ""%string) ∧
  Forall (λ name,
    name ∉ ["authed"; "auth_identity"; "auth_identity_url"]%string →
    name ∈ json_keys (marshal_ClientStats c)) ClientStats_names.
Proof.
  rewrite ClientStats_keys. split; [reflexivity|].
  rewrite !ClientStats_names_of_elem.
  assert ("authed"%string ∈ ClientStats_names) as Ha
    by (by apply (bool_decide_unpack _)).
  assert ("auth_identity"%string ∈ ClientStats_names) as Hi
    by (by apply (bool_decide_unpack _)).
  assert ("auth_identity_url"%string ∈ ClientStats_names) as Hu
    by (by apply (bool_decide_unpack _)).
  split; [|split; [|split]].
  - split; [intros (_ & H & _); by apply H|].
    intros H. repeat split; [done..|discriminate|discriminate].
  - split; [intros (_ & _ & H & _); by apply H|].
    intros H. repeat split; [done|discriminate|done|discriminate].
  - split; [intros (_ & _ & _ & H); by apply H|].
    intros H. repeat split; [done|discriminate|discriminate|done].
  - apply Forall_forall. intros name Hin Hnot.
    apply ClientStats_names_of_elem. split; [done|].
    repeat split; intros ->; destruct Hnot; by apply (bool_decide_unpack _).
Qed.

(** ** The sortable slice types *)

Lemma string_ltb_true_not_le (a b : string) : String.ltb a b = true ↔ ¬ (b ≤ a)%string.
Proof.
  rewrite <- string_ltb_false_le. destruct (String.ltb a b); naive_solver.
Qed.

Lemma string_ltb_trans (a b c : string) :
  String.ltb a b = true → String.ltb b c = true → String.ltb a c = true.
Proof.
  rewrite !string_ltb_true_not_le. intros Hab Hbc Hca.
  destruct (total String.le a b) as [Hle|Hle]; [|done].
  apply Hbc. by etrans.
Qed.

Lemma string_ltb_false_eq (a b : string) :
  String.ltb a b = false → String.ltb b a = false → a = b.
Proof.
  rewrite !string_ltb_false_le. intros Hba Hab. by apply (anti_symm String.le).
Qed.

Lemma Sorted_lookup {A} (R : relation A) (l : list A) :
  Sorted R l ↔ ∀ i a b, l !! i = Some a → l !! S i = Some b → R a b.
Proof.
  induction l as [|x l IH].
  - split; [intros _ i a b Hi; by rewrite lookup_nil in Hi|constructor].
  - split.
    + intros [Hl Hhd]%Sorted_inv [|i] a b Ha Hb; simplify_eq/=.
      * destruct Hhd; simplify_eq/=. done.
      * by eapply IH.
    + intros H. constructor.
      * apply IH. intros i a b Ha Hb. by apply (H (S i)).
      * destruct l as [|y l]; constructor. by apply (H 0%nat).
Qed.

Section slices.
Context {A : Type}.
Implicit Types (s : list A) (i j k : Z).

Lemma slice_index_nat s (n : nat) : slice_index s (Z.of_nat n) = s !! n.
Proof.
  unfold slice_index. destruct (Z.ltb_spec (Z.of_nat n) 0); [lia|]. by rewrite Nat2Z.id.
Qed.

Lemma slice_index_to_nat s i : 0 ≤ i → slice_index s i = s !! Z.to_nat i.
Proof. intros Hi. unfold slice_index. by destruct (Z.ltb_spec i 0); [lia|]. Qed.

Lemma slice_index_is_Some s i :
  is_Some (slice_index s i) ↔ 0 ≤ i < Z.of_nat (length s).
Proof.
  unfold slice_index. destruct (Z.ltb_spec i 0).
  - split; [by intros [? ?]|lia].
  - rewrite lookup_lt_is_Some. lia.
Qed.

Lemma slice_index_None s i :
  ¬ (0 ≤ i < Z.of_nat (length s)) → slice_index s i = None.
Proof.
  rewrite <- slice_index_is_Some, <- eq_None_not_Some. done.
Qed.

Lemma insert_cons_perm s (n : nat) (x y : A) :
  s !! n = Some y → y :: <[n:=x]> s ≡ₚ x :: s.
Proof.
  revert n. induction s as [|a s IH]; intros [|n] Hn; simplify_eq/=.
  - apply perm_swap.
  - rewrite (perm_swap a y), (IH n Hn). apply perm_swap.
Qed.

Lemma insert_insert_perm s (n m : nat) (x y : A) :
  s !! n = Some x → s !! m = Some y → <[m:=x]> (<[n:=y]> s) ≡ₚ s.
Proof.
  revert n m. induction s as [|a s IH]; intros [|n] [|m] Hn Hm; simplify_eq/=.
  - done.
  - by apply insert_cons_perm.
  - by apply insert_cons_perm.
  - f_equiv. by apply IH.
Qed.

Lemma slice_swap_exchanges : Swap_exchanges (λ s, Z.of_nat (length s)) slice_swap.
Proof.
  intros s i j. split.
  - intros Hi Hj.
    destruct (proj2 (slice_index_is_Some s i) Hi) as [si Hsi].
    destruct (proj2 (slice_index_is_Some s j) Hj) as [sj Hsj].
    unfold slice_swap. rewrite Hsi, Hsj. simpl. eexists. split; [done|].
    rewrite <- (Z2Nat.id i), <- (Z2Nat.id j) in * by lia.
    rewrite !slice_index_nat in *.
    assert (Z.to_nat i < length s)%nat by lia.
    assert (Z.to_nat j < length s)%nat by lia.
    rewrite !Nat2Z.id.
    split; [by rewrite !length_insert|]. split; [by apply insert_insert_perm|].
    split; [|split].
    + destruct (decide (Z.to_nat i = Z.to_nat j)) as [Heq|Hne].
      * rewrite Heq in *. rewrite list_lookup_insert_eq by (by rewrite length_insert).
        congruence.
      * rewrite list_lookup_insert_ne by done.
        by rewrite list_lookup_insert_eq.
    + by rewrite list_lookup_insert_eq by (by rewrite length_insert).
    + intros k Hki Hkj. unfold slice_index.
      destruct (Z.ltb_spec k 0); [done|].
      rewrite !list_lookup_insert_ne by lia. done.
  - intros Hout. unfold slice_swap.
    destruct (decide (0 ≤ i < Z.of_nat (length s))) as [Hi|Hi].
    + rewrite (slice_index_None s j) by tauto. by destruct (slice_index s i).
    + by rewrite (slice_index_None s i).
Qed.

Lemma slice_swap_involutive : Swap_involutive (@slice_swap A).
Proof.
  intros s s' i j Hswap.
  destruct (decide (0 ≤ i < Z.of_nat (length s) ∧ 0 ≤ j < Z.of_nat (length s)))
    as [[Hi Hj]|Hout].
  2: { by rewrite (proj2 (slice_swap_exchanges s i j) Hout) in Hswap. }
  destruct (proj1 (slice_swap_exchanges s i j) Hi Hj)
    as (s1 & Hs1 & Hlen & _ & Hii & Hjj & Hother).
  rewrite Hswap in Hs1. simplify_eq.
  assert (∀ i' j', (i' = i ∧ j' = j) ∨ (i' = j ∧ j' = i) → slice_swap s1 i' j' = Some s)
    as Hback.
  { intros i' j' Hij.
    assert (0 ≤ i' < Z.of_nat (length s1) ∧ 0 ≤ j' < Z.of_nat (length s1)) as [Hi' Hj']
      by (rewrite Hlen; destruct Hij as [[-> ->]|[-> ->]]; done).
    destruct (proj1 (slice_swap_exchanges s1 i' j') Hi' Hj')
      as (s2 & Hs2 & Hlen2 & _ & Hii2 & Hjj2 & Hother2).
    rewrite Hs2. f_equal. apply list_eq. intros n.
    rewrite <- !slice_index_nat.
    destruct (decide (Z.of_nat n = i)) as [Hn|Hni];
      [|destruct (decide (Z.of_nat n = j)) as [Hn|Hnj]].
    - rewrite Hn. destruct Hij as [[-> ->]|[-> ->]]; congruence.
    - rewrite Hn. destruct Hij as [[-> ->]|[-> ->]]; congruence.
    - rewrite Hother2, Hother; [done..| |];
        destruct Hij as [[-> ->]|[-> ->]]; done. }
  split; apply Hback; tauto.
Qed.

Section by_name.
Context (name : A → string).

Lemma Less_by_name_Some s i j (b : bool) :
  Less_by_name name s i j = Some b ↔
  ∃ si sj, slice_index s i = Some si ∧ slice_index s j = Some sj ∧
           String.ltb (name si) (name sj) = b.
Proof.
  unfold Less_by_name. split.
  - destruct (slice_index s i) as [si|]; [|done].
    destruct (slice_index s j) as [sj|]; [|done]. naive_solver.
  - intros (si & sj & -> & -> & <-). done.
Qed.

Lemma Less_by_name_strict_weak_order :
  Less_strict_weak_order (λ s, Z.of_nat (length s)) (Less_by_name name).
Proof.
  intros s. split; [|split; [|split; [|split]]].
  - intros i j. rewrite <- !slice_index_is_Some. unfold Less_by_name.
    destruct (slice_index s i) as [si|], (slice_index s j) as [sj|]; simpl;
      split; try (intros [? ?]; done); try (intros [[? ?] [? ?]]; done); eauto.
  - intros i [si Hi]%slice_index_is_Some. unfold Less_by_name. rewrite Hi. simpl.
    f_equal. apply string_ltb_false_le. reflexivity.
  - intros i j (si & sj & Hi & Hj & Hlt)%Less_by_name_Some.
    apply Less_by_name_Some. exists sj, si. by rewrite (string_ltb_asym _ _ Hlt).
  - intros i j k (si & sj & Hi & Hj & Hij)%Less_by_name_Some
      (sj' & sk & Hj' & Hk & Hjk)%Less_by_name_Some. simplify_eq.
    apply Less_by_name_Some. exists si, sk. eauto using string_ltb_trans.
  - intros i j k (si & sj & Hi & Hj & Hij)%Less_by_name_Some
      (? & ? & ? & ? & Hji)%Less_by_name_Some
      (? & sk & ? & Hk & Hjk)%Less_by_name_Some
      (? & ? & ? & ? & Hkj)%Less_by_name_Some. simplify_eq.
    pose proof (string_ltb_false_eq _ _ Hij Hji) as Heq1.
    pose proof (string_ltb_false_eq _ _ Hjk Hkj) as Heq2.
    split; apply Less_by_name_Some; eexists _, _; (split; [done|split; [done|]]);
      rewrite Heq1, Heq2; apply string_ltb_false_le; reflexivity.
Qed.

Lemma IsSorted_by_name s :
  IsSorted_by (λ s, Z.of_nat (length s)) (Less_by_name name) s ↔
  sort_IsSorted (λ a b, String.ltb (name a) (name b)) s.
Proof.
  unfold IsSorted_by, sort_IsSorted. rewrite Sorted_lookup. split.
  - intros H n a b Ha Hb.
    assert (0 < Z.of_nat (S n) < Z.of_nat (length s)) as Hn.
    { apply lookup_lt_Some in Hb. lia. }
    apply H, Less_by_name_Some in Hn as (si & sj & Hi & Hj & Hlt).
    replace (Z.of_nat (S n) - 1) with (Z.of_nat n) in Hj by lia.
    rewrite slice_index_nat in Hi, Hj. by simplify_eq.
  - intros H i Hi.
    destruct (lookup_lt_is_Some_2 s (Z.to_nat i)) as [b Hb]; [lia|].
    destruct (lookup_lt_is_Some_2 s (Z.to_nat (i - 1))) as [a Ha]; [lia|].
    apply Less_by_name_Some. exists b, a.
    rewrite !slice_index_to_nat by lia. repeat split; [done..|].
    apply (H (Z.to_nat (i - 1)) a b); [done|].
    by replace (S (Z.to_nat (i - 1))) with (Z.to_nat i) by lia.
Qed.
End by_name.
End slices.

(** X1: each of the four [Swap] fails exactly when an index is outside
    [0, Len), and otherwise gives a slice of the same length and the same
    entries, those at [i] and [j] exchanged and every other in place. *)
Theorem Swap_exchanges_entries :
  Swap_exchanges Topics_Len Topics_Swap ∧
  Swap_exchanges TopicStatsS_Len TopicStatsS_Swap ∧
  Swap_exchanges Channels_Len Channels_Swap ∧
  Swap_exchanges ChannelStatsS_Len ChannelStatsS_Swap.
Proof. split; [|split; [|split]]; apply slice_swap_exchanges. Qed.

(** X2: for each of the four [Swap], swapping the same two entries a
    second time, in either order of the indices, restores the slice. *)
Theorem Swap_twice_restores :
  Swap_involutive Topics_Swap ∧ Swap_involutive TopicStatsS_Swap ∧
  Swap_involutive Channels_Swap ∧ Swap_involutive ChannelStatsS_Swap.
Proof. split; [|split; [|split]]; apply slice_swap_involutive. Qed.

(** X3: each of the four [Less] is defined exactly on the indices in
    range and is a strict weak ordering there: irreflexive, asymmetric,
    transitive, with transitive incomparability. *)
Theorem Less_is_strict_weak_order :
  Less_strict_weak_order Topics_Len TopicsByName_Less ∧
  Less_strict_weak_order TopicStatsS_Len TopicStatsByTopicName_Less_at ∧
  Less_strict_weak_order Channels_Len ChannelsByName_Less ∧
  Less_strict_weak_order ChannelStatsS_Len ChannelStatsByChannelName_Less_at.
Proof.
  split; [|split; [|split]].
  - apply (Less_by_name_strict_weak_order Topic_name).
  - apply (Less_by_name_strict_weak_order TopicName).
  - apply (Less_by_name_strict_weak_order Channel_name).
  - apply (Less_by_name_strict_weak_order ChannelName).
Qed.

Lemma non_decreasing_by_IsSorted {A} (key : A → string) (l : list A) :
  non_decreasing_by key l ↔ sort_IsSorted (λ a b, String.ltb (key a) (key b)) l.
Proof.
  split; [|apply sort_IsSorted_by_name].
  intros Hs%StronglySorted_Sorted. unfold sort_IsSorted.
  induction Hs as [|a l Hl IH Hhd]; constructor; [done|].
  destruct Hhd; constructor. by apply string_ltb_false_le.
Qed.

(** X4: A slice passes [sort.IsSorted] under one of the four comparators
    exactly when its names are in non-decreasing order: the comparators
    sort ascending by name. *)
Theorem IsSorted_iff_ascending_names :
  (∀ s, IsSorted_by Topics_Len TopicsByName_Less s ↔ non_decreasing_by Topic_name s) ∧
  (∀ s, IsSorted_by TopicStatsS_Len TopicStatsByTopicName_Less_at s ↔
        non_decreasing_by TopicName s) ∧
  (∀ s, IsSorted_by Channels_Len ChannelsByName_Less s ↔
        non_decreasing_by Channel_name s) ∧
  (∀ s, IsSorted_by ChannelStatsS_Len ChannelStatsByChannelName_Less_at s ↔
        non_decreasing_by ChannelName s).
Proof.
  split; [|split; [|split]]; intros s; rewrite non_decreasing_by_IsSorted.
  - apply (IsSorted_by_name Topic_name).
  - apply (IsSorted_by_name TopicName).
  - apply (IsSorted_by_name Channel_name).
  - apply (IsSorted_by_name ChannelName).
Qed.

(** ** What a result of [GetStats] holds *)

Lemma Forall2_perm_r {A B} (R : A → B → Prop) (xs : list A) (ys ys' : list B) :
  Forall2 R xs ys → ys ≡ₚ ys' → ∃ xs', xs' ≡ₚ xs ∧ Forall2 R xs' ys'.
Proof.
  intros HF Hp. revert xs HF.
  induction Hp as [|y ys ys' Hp IH|y1 y2 ys|ys1 ys2 ys3 Hp1 IH1 Hp2 IH2]; intros xs HF.
  - exists xs. done.
  - apply Forall2_cons_inv_r in HF as (x & xs0 & Hx & HF & ->).
    destruct (IH _ HF) as (xs' & Hxs' & HF'). exists (x :: xs').
    split; [by f_equiv|by constructor].
  - apply Forall2_cons_inv_r in HF as (x1 & xs0 & Hx1 & HF & ->).
    apply Forall2_cons_inv_r in HF as (x2 & xs1 & Hx2 & HF & ->).
    exists (x2 :: x1 :: xs1). split; [apply perm_swap|by repeat constructor].
  - destruct (IH1 _ HF) as (xs1 & Hxs1 & HF1).
    destruct (IH2 _ HF1) as (xs2 & Hxs2 & HF2).
    exists xs2. split; [by etrans|done].
Qed.

Lemma joined_all_Some {A B} (task : A → option B → Prop) (xs : list A) (out sorted : list B) :
  (∀ x, ¬ task x None) → joined task xs out → sorted ≡ₚ out →
  ∃ xs', xs' ≡ₚ xs ∧ Forall2 (λ x y, task x (Some y)) xs' sorted.
Proof.
  intros Hsome (rs & HF & Hp) Hs.
  apply (Forall2_perm_r _ xs (omap id rs)); [|by rewrite Hs, Hp].
  clear Hp. induction HF as [|x r xs rs Hxr HF IH]; [constructor|].
  destruct r as [y|]; [by constructor|]. by destruct (Hsome x).
Qed.

Lemma channelTask_snapshot (c : Channel) (cs : ChannelStats) :
  channelTask c cs ↔ snapshot_of_Channel c cs.
Proof.
  split.
  - inversion 1 as [visited Hr]; subst. split; [done|]. simpl.
    unfold range in Hr. by rewrite Hr.
  - intros [Heq Hcl].
    destruct (Forall2_perm_r (λ cl st, st = Stats cl) (map_to_list (clients c)).*2
                (Stats <$> (map_to_list (clients c)).*2) (Clients cs))
      as (visited & Hv & HF); [|done|].
    { apply Forall2_fmap_r, Forall_Forall2_diag, Forall_forall. done. }
    assert (Clients cs = Stats <$> visited) as Hvisited.
    { clear Hv Hcl Heq. induction HF; simplify_eq/=; by f_equal. }
    rewrite Heq, Hvisited. by apply channelTask_run.
Qed.

Lemma topicTask_all_snapshot (t : Topic) (ts : TopicStats) :
  topicTask "" t (Some ts) → snapshot_of_Topic t ts.
Proof.
  inversion 1 as [|realChannels channels sorted Hsel Hj [Hp _]]; subst.
  split; [done|]. simpl.
  apply selected_empty_name in Hsel as (visited & ? & Hr). simplify_eq.
  assert (∀ c, ¬ ∃ cs, None = Some cs ∧ channelTask c cs) as Hsome
    by (by intros c (cs & ? & _)).
  destruct (joined_all_Some _ _ _ sorted Hsome Hj Hp) as (chans & Hchans & HF).
  exists chans. split; [by rewrite Hchans|].
  eapply Forall2_impl; [exact HF|].
  intros c cs (cs' & ? & Hc). simplify_eq. by apply channelTask_snapshot.
Qed.

Lemma topicTask_all_not_None (t : Topic) : ¬ topicTask "" t None.
Proof.
  inversion 1 as [Hsel|]; subst.
  apply selected_empty_name in Hsel as (? & ? & _). done.
Qed.

(** X5: Called with no filter, [GetStats] returns one [TopicStats] per topic of
    the map, none missing and none twice, each the snapshot of its topic:
    the topic's counters, and one [ChannelStats] per channel of the topic,
    each with the channel's counters and one [ClientStats] per client. *)
Theorem GetStats_unfiltered_complete (n : NSQD) (res : list TopicStats) :
  GetStats n "" "" res →
  length res = size (topicMap n) ∧
  ∃ topics, topics ≡ₚ (map_to_list (topicMap n)).*2 ∧
            Forall2 snapshot_of_Topic topics res.
Proof.
  inversion 1 as [Hsel|realTopics out sorted Hsel Hj [Hp _]]; subst.
  { apply selected_empty_name in Hsel as (? & ? & _). done. }
  apply selected_empty_name in Hsel as (visited & ? & Hr). simplify_eq.
  destruct (joined_all_Some _ _ _ res topicTask_all_not_None Hj Hp)
    as (topics & Htopics & HF).
  unfold range in Hr. split.
  - rewrite <- (Forall2_length _ _ _ HF), Htopics, Hr, length_fmap.
    apply length_map_to_list.
  - exists topics. split; [by rewrite Htopics|].
    eapply Forall2_impl; [exact HF|]. apply topicTask_all_snapshot.
Qed.

Lemma GetStats_unfiltered_complete_witness :
  length (GetStats_seq example_NSQD "" "") = size (topicMap example_NSQD) ∧
  ∃ topics, topics ≡ₚ (map_to_list (topicMap example_NSQD)).*2 ∧
            Forall2 snapshot_of_Topic topics (GetStats_seq example_NSQD "" "").
Proof.
  apply (GetStats_unfiltered_complete example_NSQD). apply GetStats_seq_run.
Defined.

(** X6: With a topic filter and a channel filter that both name an entry,
    [GetStats] returns exactly one [TopicStats], built from that topic,
    whose [Channels] is exactly the one [ChannelStats] built from that
    channel with the [Stats()] of its clients. *)
Theorem GetStats_topic_and_channel (n : NSQD) (topic channel : string) (tp : Topic)
    (c : Channel) (res : list TopicStats) :
  topic ≠ "" → channel ≠ "" →
  topicMap n !! topic = Some tp → channelMap tp !! channel = Some c →
  GetStats n topic channel res →
  ∃ visited, visited ≡ₚ (map_to_list (clients c)).*2 ∧
             res = [NewTopicStats tp [NewChannelStats c (Stats <$> visited)]].
Proof.
  intros Htopic Hchannel Htp Hc.
  inversion 1 as [Hsel|realTopics out sorted Hsel Hj Hsort]; subst.
  { by apply (selected_functional_Some _ _ _ _ Htopic Htp) in Hsel. }
  apply (selected_functional_Some _ _ _ _ Htopic Htp) in Hsel. simplify_eq.
  apply joined_singleton in Hj as [[Htask ->]|(ts & Htask & ->)];
    apply (topicTask_contribution _ _ _ Hchannel) in Htask;
    unfold contribution in Htask; rewrite Hc in Htask;
    destruct Htask as (cs & Hcs & Hts); [done|]. simplify_eq.
  apply sort_Sort_singleton in Hsort as ->.
  inversion Hcs as [visited Hr]; subst. by exists visited.
Qed.

Lemma GetStats_topic_and_channel_witness :
  ∃ visited, visited ≡ₚ (map_to_list (clients example_billing)).*2 ∧
             GetStats_seq example_NSQD "orders" "billing" =
             [NewTopicStats example_orders
                [NewChannelStats example_billing (Stats <$> visited)]].
Proof.
  apply (GetStats_topic_and_channel example_NSQD "orders" "billing"
           example_orders example_billing);
    [done | done | reflexivity | reflexivity | apply GetStats_seq_run].
Defined.

(** X7: With a channel filter that names no channel of any selected topic,
    [GetStats] returns the empty sequence, whatever the topic filter. *)
Theorem GetStats_absent_channel (n : NSQD) (topic channel : string) (res : list TopicStats) :
  channel ≠ "" →
  (∀ k t, topicMap n !! k = Some t → topic = "" ∨ topic = k →
          channelMap t !! channel = None) →
  GetStats n topic channel res → res = [].
Proof.
  intros Hchannel Hnone Hrun.
  destruct res as [|ts res]; [done|].
  destruct (GetStats_elem _ _ _ _ ts Hrun) as (k & t & Hk & Hsel & Htask); [left|].
  apply (topicTask_contribution _ _ _ Hchannel) in Htask.
  unfold contribution in Htask. by rewrite (Hnone k t Hk Hsel) in Htask.
Qed.

Lemma GetStats_absent_channel_witness :
  GetStats_seq example_NSQD "" "nonexistent" = [].
Proof.
  apply (GetStats_absent_channel example_NSQD "" "nonexistent"); [done| |].
  - intros k t Hk%elem_of_map_to_list _. vm_compute in Hk.
    repeat (apply elem_of_cons in Hk as [Hk|Hk]; [by simplify_eq|]).
    by apply elem_of_nil in Hk.
  - apply GetStats_seq_run.
Defined.

Lemma topicTask_Channels_NoDup (channel : string) (t : Topic) (ts : TopicStats) :
  wf_Topic t → topicTask channel t (Some ts) → NoDup (ChannelName <$> Channels ts).
Proof.
  intros Hwf. inversion 1 as [|realChannels channels sorted Hsel Hj [Hp _]]; subst.
  simpl. rewrite Hp.
  apply (joined_keys_NoDup (λ c r, ∃ cs, r = Some cs ∧ channelTask c cs)
           ChannelName Channel_name) with realChannels; [| |done].
  - intros c cs (cs' & ? & Hcs). simplify_eq. by apply channelTask_ChannelName.
  - by eapply selected_NoDup_names.
Qed.

Lemma GetStats_TopicName_NoDup (n : NSQD) (topic channel : string) (res : list TopicStats) :
  wf_NSQD n → GetStats n topic channel res → NoDup (TopicName <$> res).
Proof.
  intros [Hkeyed Hwf] Hrun.
  inversion Hrun as [|realTopics out sorted Hsel Hj [Hp _]]; subst; [constructor|].
  rewrite Hp.
  apply (joined_keys_NoDup (topicTask channel) TopicName Topic_name) with realTopics;
    [|by eapply selected_NoDup_names|done].
  intros t ts. apply topicTask_TopicName.
Qed.

(** X8: On a broker whose topics and channels are filed under their names, no
    result of [GetStats] holds two [TopicStats] of the same name, and no
    [TopicStats] in it two channels of the same name. *)
Theorem GetStats_names_NoDup (n : NSQD) (topic channel : string) (res : list TopicStats) :
  wf_NSQD n → GetStats n topic channel res →
  NoDup (TopicName <$> res) ∧
  Forall (λ ts, NoDup (ChannelName <$> Channels ts)) res.
Proof.
  intros Hwf Hrun. split; [by eapply GetStats_TopicName_NoDup|].
  apply Forall_forall. intros ts Hts.
  destruct (GetStats_elem _ _ _ _ _ Hrun Hts) as (k & t & Hk & _ & Htask).
  eapply topicTask_Channels_NoDup; [|done]. by apply (proj2 Hwf k t).
Qed.

Lemma example_NSQD_wf : wf_NSQD example_NSQD.
Proof.
  unfold wf_NSQD, wf_Topic, keyed_by_name.
  split; apply (bool_decide_unpack _); vm_compute; exact I.
Qed.

Lemma GetStats_names_NoDup_witness :
  NoDup (TopicName <$> GetStats_seq example_NSQD "" "") ∧
  Forall (λ ts, NoDup (ChannelName <$> Channels ts)) (GetStats_seq example_NSQD "" "").
Proof.
  apply (GetStats_names_NoDup example_NSQD "" "");
    [exact example_NSQD_wf | apply GetStats_seq_run].
Defined.

Lemma filter_none {A} (P : A → Prop) `{∀ x, Decision (P x)} (l : list A) :
  Forall (λ x, ¬ P x) l → filter P l = [].
Proof.
  induction 1 as [|x l Hx Hl IH]; [done|]. by rewrite filter_cons_False.
Qed.

Lemma filter_unique_key {A} (f : A → string) (l : list A) (x : A) :
  NoDup (f <$> l) → x ∈ l → filter (λ y, f y = f x) l = [x].
Proof.
  induction l as [|a l IH]; intros Hnd Hx; [by apply elem_of_nil in Hx|].
  rewrite fmap_cons in Hnd. apply NoDup_cons in Hnd as [Ha Hnd].
  apply elem_of_cons in Hx as [->|Hx].
  - rewrite filter_cons_True by done. f_equal. apply filter_none, Forall_forall.
    intros y Hy Heq. apply Ha. rewrite <- Heq. by apply list_elem_of_fmap_2.
  - rewrite filter_cons_False; [by apply IH|].
    intros Heq. apply Ha. rewrite Heq. by apply list_elem_of_fmap_2.
Qed.

Lemma GetStats_named_topic_aux (n : NSQD) (t : string) (tp : Topic) :
  t ≠ "" → topicMap n !! t = Some tp →
  (∃ res, GetStats n t "" res) ∧
  ∀ res, GetStats n t "" res → ∃ ts, res = [ts] ∧ topicTask "" tp (Some ts).
Proof.
  intros Hne Hm. split.
  { eexists. apply GetStats_seq_run. }
  intros res Hrun.
  inversion Hrun as [Hsel|realTopics topics sorted Hsel Hj Hsort]; subst.
  - apply (selected_functional_Some _ _ _ _ Hne Hm) in Hsel. done.
  - apply (selected_functional_Some _ _ _ _ Hne Hm) in Hsel. simplify_eq.
    apply joined_singleton in Hj as [[Htask ->]|(ts & Htask & ->)].
    + by destruct (topicTask_all_not_None tp).
    + apply sort_Sort_singleton in Hsort as ->. eauto.
Qed.

Lemma GetStats_unfiltered_topicTasks (n : NSQD) (res : list TopicStats) :
  GetStats n "" "" res →
  ∃ topics, topics ≡ₚ (map_to_list (topicMap n)).*2 ∧
            Forall2 (λ t ts, topicTask "" t (Some ts)) topics res.
Proof.
  inversion 1 as [Hsel|realTopics out sorted Hsel Hj [Hp _]]; subst.
  { apply selected_empty_name in Hsel as (? & ? & _). done. }
  apply selected_empty_name in Hsel as (visited & ? & Hr). simplify_eq.
  destruct (joined_all_Some _ _ _ res topicTask_all_not_None Hj Hp)
    as (topics & Htopics & HF).
  exists topics. split; [|done]. unfold range in Hr. by rewrite Htopics.
Qed.

(** X9: On a broker whose topics and channels are filed under their names,
    filtering by a topic name gives what the unfiltered call gives for the
    topics of that name: the same [TopicStats], up to the order of the
    clients within a channel, or nothing when the map has no such topic. *)
Theorem GetStats_topic_filter_restricts (n : NSQD) (t : string)
    (res_t res_all : list TopicStats) :
  wf_NSQD n → t ≠ "" →
  GetStats n t "" res_t → GetStats n "" "" res_all →
  Forall2 TopicStats_equiv res_t (filter (λ ts, TopicName ts = t) res_all).
Proof.
  intros Hwf Hne Hrun_t Hrun_all.
  destruct (topicMap n !! t) as [tp|] eqn:Htp.
  - assert (Topic_name tp = t) as Hname by (by apply (proj1 Hwf t tp)).
    destruct (proj2 (GetStats_named_topic_aux n t tp Hne Htp) res_t Hrun_t)
      as (ts1 & -> & Hts1).
    destruct (GetStats_unfiltered_topicTasks n res_all Hrun_all)
      as (topics & Htopics & HF).
    assert (tp ∈ topics) as Hin.
    { rewrite Htopics. apply list_elem_of_fmap. exists (t, tp).
      split; [done|]. by apply elem_of_map_to_list. }
    apply list_elem_of_lookup in Hin as [i Hi].
    destruct (Forall2_lookup_l _ _ _ _ _ HF Hi) as (ts2 & Hts2 & Htask2).
    assert (TopicName ts2 = t) as Hname2.
    { by rewrite (topicTask_TopicName _ _ _ Htask2). }
    rewrite <- Hname2.
    rewrite filter_unique_key;
      [|by apply (GetStats_TopicName_NoDup n "" "")|by eapply list_elem_of_lookup_2].
    constructor; [|constructor].
    eapply topicTask_agree; [|done..]. by apply (proj2 Hwf t tp).
  - assert (res_t = []) as ->.
    { inversion Hrun_t as [|realTopics out sorted Hsel]; subst; [done|].
      by apply (selected_functional_None _ _ _ Hne Htp) in Hsel. }
    rewrite filter_none; [constructor|].
    apply Forall_forall. intros ts Hts Hname.
    destruct (GetStats_elem _ _ _ _ _ Hrun_all Hts) as (k & tp & Hk & _ & Htask).
    apply topicTask_TopicName in Htask.
    rewrite (proj1 Hwf k tp Hk) in Htask. congruence.
Qed.

Lemma GetStats_topic_filter_restricts_witness :
  Forall2 TopicStats_equiv
    (GetStats_seq example_NSQD "orders" "")
    (filter (λ ts, TopicName ts = "orders"%string) (GetStats_seq example_NSQD "" "")).
Proof.
  apply (GetStats_topic_filter_restricts example_NSQD "orders");
    [exact example_NSQD_wf | done | apply GetStats_seq_run | apply GetStats_seq_run].
Defined.

(** ** Writing a result of [GetStats] as JSON *)

Lemma channelTask_in_range (c : Channel) (cs : ChannelStats) :
  Channel_in_range c → channelTask c cs → wf_ChannelStats cs.
Proof.
  intros (Hint & Hname & Hcl). inversion 1 as [visited Hr]; subst.
  destruct_and!. unfold wf_ChannelStats. simpl. split_and!; [done..|].
  apply Forall_fmap, Forall_forall. intros client Hin.
  destruct (range_elem _ _ _ Hr Hin) as [k Hk]. by apply (Hcl k client).
Qed.

Lemma topicTask_in_range (channel : string) (t : Topic) (ts : TopicStats) :
  Topic_in_range t → topicTask channel t (Some ts) → wf_TopicStats ts.
Proof.
  intros (Hint & Hname & Hch) Htask.
  assert (Forall wf_ChannelStats (Channels ts)) as Hchs.
  { apply Forall_forall. intros cs Hcs.
    destruct (topicTask_Channels_elem _ _ _ _ Htask Hcs) as (kc & c & Hkc & Hc).
    eapply channelTask_in_range; [|done]. by apply (Hch kc c). }
  inversion Htask; subst. destruct_and!. unfold wf_TopicStats. simpl. by split_and!.
Qed.

(** X12: with the broker's counters within the ranges of their Go types
    and its strings (the names of the topics and channels, the strings of
    the clients' [Stats()]) valid UTF-8, every sequence that [GetStats]
    returns, written as a JSON array, reads back as the same sequence,
    wherever [quantile.Result] reads back its own JSON form. *)
Theorem GetStats_json_roundtrip
    (marshal_Result : quantile_Result → json)
    (unmarshal_Result : json → option quantile_Result)
    (n : NSQD) (topic channel : string) (res : list TopicStats) :
  (∀ r, unmarshal_Result (marshal_Result r) = Some r) →
  (∀ r, marshal_Result r ≠ JNull) →
  NSQD_in_range n → GetStats n topic channel res →
  decode_slice (unmarshal_TopicStats unmarshal_Result)
    (Some (JArray (marshal_TopicStats marshal_Result <$> res))) = Some res.
Proof.
  intros Hrt Hnn Hrange Hrun. simpl. apply mapM_roundtrip, Forall_forall.
  intros ts Hts. apply TopicStats_roundtrip; [done..|].
  destruct (GetStats_elem _ _ _ _ _ Hrun Hts) as (k & t & Hk & _ & Htask).
  eapply topicTask_in_range; [|done]. by apply (Hrange k t).
Qed.

Lemma example_NSQD_in_range : NSQD_in_range example_NSQD.
Proof.
  unfold NSQD_in_range, Topic_in_range, Channel_in_range, wf_ClientStats,
    valid_utf8, is_int32, is_int64, is_uint64.
  apply (bool_decide_unpack _). vm_compute. exact I.
Qed.

Lemma GetStats_json_roundtrip_witness :
  decode_slice (unmarshal_TopicStats example_unmarshal_Result)
    (Some (JArray (marshal_TopicStats example_marshal_Result <$>
                     GetStats_seq example_NSQD "" ""))) =
  Some (GetStats_seq example_NSQD "" "").
Proof.
  apply (GetStats_json_roundtrip example_marshal_Result example_unmarshal_Result
           example_NSQD "" "");
    [ exact example_Result_roundtrip | exact example_Result_not_null
    | exact example_NSQD_in_range | apply GetStats_seq_run ].
Defined.

(** X13: No struct has two fields under one JSON name: whatever the value, the
    names of the members written are pairwise distinct, so no field hides
    another. *)
Theorem json_names_distinct (marshal_Result : quantile_Result → json)
    (ts : TopicStats) (cs : ChannelStats) (c : ClientStats) (m : memStats) :
  NoDup (json_keys (marshal_TopicStats marshal_Result ts)) ∧
  NoDup (json_keys (marshal_ChannelStats marshal_Result cs)) ∧
  NoDup (json_keys (marshal_ClientStats c)) ∧
  NoDup (json_keys (marshal_memStats m)).
Proof.
  split; [|split; [|split]].
  - change (NoDup TopicStats_names). by apply (bool_decide_unpack _).
  - change (NoDup ChannelStats_names). by apply (bool_decide_unpack _).
  - rewrite ClientStats_keys. apply NoDup_filter. by apply (bool_decide_unpack _).
  - change (NoDup MemSample_names). by apply (bool_decide_unpack _).
Qed.

(** X14: two values of a stats struct whose integers are within the
    ranges of their Go types and whose strings are valid UTF-8, and that
    are written as the same JSON, are the same value; without the
    condition on the strings they need not be, see
    [ClientStats_0xFF_read_back]. *)
Theorem marshal_injective
    (marshal_Result : quantile_Result → json)
    (unmarshal_Result : json → option quantile_Result)
    (ts1 ts2 : TopicStats) (cs1 cs2 : ChannelStats) (c1 c2 : ClientStats)
    (m1 m2 : memStats) :
  (∀ r, unmarshal_Result (marshal_Result r) = Some r) →
  (∀ r, marshal_Result r ≠ JNull) →
  wf_TopicStats ts1 → wf_TopicStats ts2 →
  wf_ChannelStats cs1 → wf_ChannelStats cs2 →
  wf_ClientStats c1 → wf_ClientStats c2 →
  wf_memStats m1 → wf_memStats m2 →
  (marshal_TopicStats marshal_Result ts1 = marshal_TopicStats marshal_Result ts2 →
   ts1 = ts2) ∧
  (marshal_ChannelStats marshal_Result cs1 = marshal_ChannelStats marshal_Result cs2 →
   cs1 = cs2) ∧
  (marshal_ClientStats c1 = marshal_ClientStats c2 → c1 = c2) ∧
  (marshal_memStats m1 = marshal_memStats m2 → m1 = m2).
Proof.
  intros Hrt Hnn Hts1 Hts2 Hcs1 Hcs2 Hc1 Hc2 Hm1 Hm2.
  split; [|split; [|split]]; intros Heq.
  - pose proof (TopicStats_roundtrip _ _ Hrt Hnn ts1 Hts1) as H1.
    pose proof (TopicStats_roundtrip _ _ Hrt Hnn ts2 Hts2) as H2. congruence.
  - pose proof (ChannelStats_roundtrip _ _ Hrt Hnn cs1 Hcs1) as H1.
    pose proof (ChannelStats_roundtrip _ _ Hrt Hnn cs2 Hcs2) as H2. congruence.
  - pose proof (ClientStats_roundtrip c1 Hc1) as H1.
    pose proof (ClientStats_roundtrip c2 Hc2) as H2. congruence.
  - pose proof (memStats_roundtrip m1 Hm1) as H1.
    pose proof (memStats_roundtrip m2 Hm2) as H2. congruence.
Qed.

Lemma marshal_injective_witness :
  (marshal_TopicStats example_marshal_Result example_TopicStats =
     marshal_TopicStats example_marshal_Result example_TopicStats →
   example_TopicStats = example_TopicStats) ∧
  (marshal_ChannelStats example_marshal_Result example_ChannelStats =
     marshal_ChannelStats example_marshal_Result example_ChannelStats →
   example_ChannelStats = example_ChannelStats) ∧
  (marshal_ClientStats (example_ClientStats "a") =
     marshal_ClientStats (example_ClientStats "b") →
   example_ClientStats "a" = example_ClientStats "b") ∧
  (marshal_memStats (getMemStats percentile example_MemStats) =
     marshal_memStats (getMemStats percentile (with_PauseNs [] example_MemStats)) →
   getMemStats percentile example_MemStats =
     getMemStats percentile (with_PauseNs [] example_MemStats)).
Proof.
  apply (marshal_injective example_marshal_Result example_unmarshal_Result);
    [ exact example_Result_roundtrip | exact example_Result_not_null | .. ];
    repeat first [split | apply Forall_cons | apply Forall_nil];
    vm_compute; first [discriminate | reflexivity].
Defined.

(** ** More on the runs of [GetStats] *)

Lemma omap_length_le {A B} (f : A → option B) (l : list A) :
  (length (omap f l) ≤ length l)%nat.
Proof.
  induction l as [|x l IH]; csimpl; [done|].
  destruct (f x); csimpl; lia.
Qed.

(** X11: [GetStats] never returns more entries than the broker has topics, and
    with a topic filter never more than one. *)
Theorem GetStats_length_bound (n : NSQD) (topic channel : string) (res : list TopicStats) :
  GetStats n topic channel res →
  (length res ≤ size (topicMap n))%nat ∧ (topic ≠ "" → (length res ≤ 1)%nat).
Proof.
  inversion 1 as [|realTopics out sorted Hsel (rs & HF & Hp) [Hp' _]]; subst.
  { split; [apply Nat.le_0_l|intros _; apply Nat.le_0_l]. }
  assert (length res ≤ length realTopics)%nat as Hle.
  { rewrite Hp', Hp, (Forall2_length _ _ _ HF). apply omap_length_le. }
  inversion Hsel as [visited Hname Hr|val Hname Hval|]; subst.
  - split; [|done]. unfold range in Hr.
    rewrite Hr, length_fmap, length_map_to_list in Hle. done.
  - simpl in Hle. split; [|done].
    assert (size (topicMap n) ≠ 0)%nat; [|lia].
    apply map_size_non_empty_iff. intros Hempty. rewrite Hempty in Hval.
    by rewrite lookup_empty in Hval.
Qed.

Lemma GetStats_length_bound_witness :
  (length (GetStats_seq example_NSQD "orders" "billing") ≤ size (topicMap example_NSQD))%nat ∧
  ("orders"%string ≠ ""%string →
   (length (GetStats_seq example_NSQD "orders" "billing") ≤ 1)%nat).
Proof.
  apply (GetStats_length_bound example_NSQD "orders" "billing"). apply GetStats_seq_run.
Defined.

(** ** More on the memory sampler *)

Lemma insertionSort_Uint64Slice_perm (l1 l2 : list Z) :
  l1 ≡ₚ l2 → insertionSort Uint64Slice_Less l1 = insertionSort Uint64Slice_Less l2.
Proof.
  intros Hp. apply Uint64Slice_Sort_unique.
  destruct (insertionSort_Sort _ Uint64Slice_Less_asym l1) as [Hp1 Hs1].
  split; [by rewrite Hp1|done].
Qed.

(** X15: What [getMemStats] reports depends on the pause buffer only through
    the pauses it takes, and not on their order: with the other counters
    unchanged, a buffer of the same length whose first
    [min(NumGC, len(PauseNs))] entries are a rearrangement of those of the
    first gives the same sample, whatever the entries beyond hold. *)
Theorem getMemStats_pause_order_irrelevant (pct : Q → list Z → Z → Z)
    (ms : runtime_MemStats) (pauses : list Z) :
  length pauses = length (PauseNs ms) →
  take (Z.to_nat (Z.min (NumGC ms) (Z.of_nat (length (PauseNs ms))))) pauses ≡ₚ
  take (Z.to_nat (Z.min (NumGC ms) (Z.of_nat (length (PauseNs ms))))) (PauseNs ms) →
  getMemStats pct (with_PauseNs pauses ms) = getMemStats pct ms.
Proof.
  intros Hlen Hp.
  assert (gcPauses (with_PauseNs pauses ms) = gcPauses ms) as Hg.
  { unfold gcPauses. simpl. rewrite Hlen.
    apply insertionSort_Uint64Slice_perm.
    destruct (Z.ltb_spec (NumGC ms) (Z.of_nat (length (PauseNs ms)))).
    - by rewrite Z.min_l in Hp by lia.
    - by rewrite Z.min_r in Hp by lia. }
  unfold getMemStats. rewrite Hg. reflexivity.
Qed.

Lemma getMemStats_pause_order_irrelevant_witness :
  getMemStats percentile
    (with_PauseNs ([2500; 3000; 1000] ++ replicate 253 7) example_MemStats) =
  getMemStats percentile example_MemStats.
Proof.
  apply (getMemStats_pause_order_irrelevant percentile example_MemStats).
  - reflexivity.
  - vm_compute. rewrite (perm_swap 3000 2500). apply perm_skip, perm_swap.
Defined.

(** ** The channel filter against the unfiltered call *)

Lemma GetStats_run_inv (n : NSQD) (topic channel : string) (res : list TopicStats) :
  GetStats n topic channel res →
  (selected topic (topicMap n) None ∧ res = []) ∨
  ∃ realTopics rs,
    selected topic (topicMap n) (Some realTopics) ∧
    Forall2 (topicTask channel) realTopics rs ∧ res ≡ₚ omap id rs ∧
    non_decreasing_by TopicName res.
Proof.
  inversion 1 as [|realTopics out sorted Hsel (rs & HF & Hp) [Hp' Hs]]; subst; [by left|].
  right. exists realTopics, rs. split_and!; [done..| |].
  - by rewrite Hp', Hp.
  - by apply sort_IsSorted_by_name.
Qed.

Lemma Forall2_elem_l {A B} (R : A → B → Prop) (xs : list A) (ys : list B) (x : A) :
  Forall2 R xs ys → x ∈ xs → ∃ y, y ∈ ys ∧ R x y.
Proof.
  intros HF [i Hi]%list_elem_of_lookup.
  destruct (Forall2_lookup_l _ _ _ _ _ HF Hi) as (y & Hy & Hxy).
  exists y. split; [by eapply list_elem_of_lookup_2|done].
Qed.

Lemma restrict_to_channel_TopicName (channel : string) (ts ts' : TopicStats) :
  restrict_to_channel channel ts = Some ts' → TopicName ts' = TopicName ts.
Proof.
  unfold restrict_to_channel.
  destruct (filter _ (Channels ts)); intros; simplify_eq; done.
Qed.

Lemma restrict_names_sublist (channel : string) (l : list TopicStats) :
  TopicName <$> omap (restrict_to_channel channel) l `sublist_of` TopicName <$> l.
Proof.
  induction l as [|ts l IH]; csimpl; [done|].
  destruct (restrict_to_channel channel ts) as [ts'|] eqn:Hr; csimpl.
  - rewrite (restrict_to_channel_TopicName _ _ _ Hr). by apply sublist_skip.
  - by apply sublist_cons.
Qed.

Lemma sublist_StronglySorted {A} (R : relation A) (l1 l2 : list A) :
  l1 `sublist_of` l2 → StronglySorted R l2 → StronglySorted R l1.
Proof.
  induction 1 as [|x l1 l2 Hsub IH|x l1 l2 Hsub IH]; intros Hs; [done|..].
  - apply StronglySorted_inv in Hs as [Hs Hx]. constructor; [by apply IH|].
    eapply Forall_forall. intros y Hy. rewrite Forall_forall in Hx. apply Hx.
    by eapply elem_of_sublist.
  - apply StronglySorted_inv in Hs as [Hs _]. by apply IH.
Qed.

Lemma GetStats_TopicName_sorted (n : NSQD) (topic channel : string)
    (res : list TopicStats) :
  GetStats n topic channel res → non_decreasing_by TopicName res.
Proof.
  intros Hrun.
  destruct (GetStats_run_inv _ _ _ _ Hrun) as [[_ Hnil]|(? & ? & _ & _ & _ & Hs)];
    [subst; constructor|done].
Qed.

(** A topic that the topic filter selects runs its goroutine, and what
    that appends is in the result. *)
Lemma GetStats_selected_elem (n : NSQD) (topic channel : string) (res : list TopicStats)
    (k : string) (t : Topic) :
  GetStats n topic channel res → topicMap n !! k = Some t → topic = "" ∨ topic = k →
  ∃ r, topicTask channel t r ∧ ∀ ts, r = Some ts → ts ∈ res.
Proof.
  intros Hrun Hk Hsel.
  destruct (GetStats_run_inv _ _ _ _ Hrun)
    as [[Hnone _]|(realTopics & rs & Hsome & HF & Hp & _)].
  - inversion Hnone as [| |Hne Hm]; subst. destruct Hsel as [?| ->]; congruence.
  - assert (t ∈ realTopics) as Hin.
    { inversion Hsome as [visited Hname Hr|val Hname Hval|]; subst.
      - unfold range in Hr. rewrite Hr. apply list_elem_of_fmap. exists (k, t).
        split; [done|]. by apply elem_of_map_to_list.
      - destruct Hsel as [?| ->]; [done|]. simplify_eq. left. }
    destruct (Forall2_elem_l _ _ _ _ HF Hin) as (r & Hr & Htask).
    exists r. split; [done|]. intros ts ->. rewrite Hp.
    apply list_elem_of_omap. by exists (Some ts).
Qed.

(** The one channel of a topic's snapshot that carries a given name. *)
Lemma topicTask_all_channel (t : Topic) (ts : TopicStats) (channel : string) (c : Channel) :
  wf_Topic t → channelMap t !! channel = Some c → topicTask "" t (Some ts) →
  ∃ cs, channelTask c cs ∧ restrict_to_channel channel ts = Some (NewTopicStats t [cs]).
Proof.
  intros Hwf Hc Htask.
  pose proof (topicTask_Channels_NoDup _ _ _ Hwf Htask) as Hnd.
  destruct (topicTask_all_snapshot _ _ Htask) as [Hts (chans & Hchans & HF)].
  assert (c ∈ chans) as Hin.
  { rewrite Hchans. apply list_elem_of_fmap. exists (channel, c).
    split; [done|]. by apply elem_of_map_to_list. }
  destruct (Forall2_elem_l _ _ _ _ HF Hin) as (cs & Hcs & Hsnap).
  apply channelTask_snapshot in Hsnap.
  exists cs. split; [done|].
  assert (ChannelName cs = channel) as Hname.
  { rewrite (channelTask_ChannelName _ _ Hsnap). by apply (Hwf channel c). }
  unfold restrict_to_channel. rewrite <- Hname, (filter_unique_key ChannelName) by done.
  rewrite Hts. reflexivity.
Qed.

(** X10: On a broker whose topics and channels are filed under their names,
    filtering by a channel name gives what the call without channel filter
    gives once every [TopicStats] is cut down to its channel of that name
    and those without one are dropped, up to the order of the clients
    within the channel. *)
Theorem GetStats_channel_filter_restricts (n : NSQD) (topic channel : string)
    (res_c res_all : list TopicStats) :
  wf_NSQD n → channel ≠ "" →
  GetStats n topic channel res_c → GetStats n topic "" res_all →
  Forall2 TopicStats_equiv res_c (omap (restrict_to_channel channel) res_all).
Proof.
  intros Hwf Hne Hrun_c Hrun_all.
  pose proof (GetStats_TopicName_NoDup _ _ _ _ Hwf Hrun_c) as Hnd_c.
  pose proof (GetStats_TopicName_NoDup _ _ _ _ Hwf Hrun_all) as Hnd_all.
  pose proof (GetStats_TopicName_sorted _ _ _ _ Hrun_c) as Hs_c.
  pose proof (GetStats_TopicName_sorted _ _ _ _ Hrun_all) as Hs_all.
  assert (NoDup (TopicName <$> omap (restrict_to_channel channel) res_all)) as Hnd_r.
  { eapply sublist_NoDup; [exact Hnd_all|apply restrict_names_sublist]. }
  (* every entry of the filtered run has its counterpart *)
  assert (∀ ts1, ts1 ∈ res_c →
            ∃ ts2, ts2 ∈ omap (restrict_to_channel channel) res_all ∧
                   TopicName ts1 = TopicName ts2 ∧ TopicStats_equiv ts1 ts2) as H12.
  { intros ts1 Hts1.
    destruct (GetStats_elem _ _ _ _ _ Hrun_c Hts1) as (k & t & Hk & Hsel & Htask1).
    apply (topicTask_contribution _ _ _ Hne) in Htask1. unfold contribution in Htask1.
    destruct (channelMap t !! channel) as [c|] eqn:Hc; [|done].
    destruct Htask1 as (cs1 & Hcs1 & ?). simplify_eq.
    destruct (GetStats_selected_elem _ _ _ _ k t Hrun_all Hk Hsel)
      as (r & Hr & Hin2).
    destruct r as [ts2|]; [|by destruct (topicTask_all_not_None t)].
    destruct (topicTask_all_channel t ts2 channel c (proj2 Hwf k t Hk) Hc Hr)
      as (cs2 & Hcs2 & Hrestrict).
    exists (NewTopicStats t [cs2]). split; [|split; [done|]].
    - apply list_elem_of_omap. exists ts2. split; [by apply Hin2|done].
    - split; [done|]. simpl. constructor; [|constructor].
      by eapply channelTask_agree. }
  (* and the other way round, for the names *)
  assert (∀ ts2, ts2 ∈ omap (restrict_to_channel channel) res_all →
            ∃ ts1, ts1 ∈ res_c ∧ TopicName ts1 = TopicName ts2) as H21.
  { intros ts2' (ts2 & Hts2 & Hrestrict)%list_elem_of_omap.
    destruct (GetStats_elem _ _ _ _ _ Hrun_all Hts2) as (k & t & Hk & Hsel & Htask2).
    assert (∃ cs, cs ∈ Channels ts2 ∧ ChannelName cs = channel) as (cs & Hcs & Hname).
    { unfold restrict_to_channel in Hrestrict.
      destruct (filter _ (Channels ts2)) as [|cs chs] eqn:Hf; [done|].
      assert (cs ∈ filter (λ cs, ChannelName cs = channel) (Channels ts2)) as Hin
        by (rewrite Hf; left).
      apply list_elem_of_filter in Hin as [? ?]. eauto. }
    destruct (topicTask_Channels_elem _ _ _ _ Htask2 Hcs) as (kc & c & Hkc & Hc).
    assert (kc = channel) as ->.
    { rewrite <- Hname, (channelTask_ChannelName _ _ Hc).
      symmetry. by apply (proj2 Hwf k t Hk kc c). }
    destruct (GetStats_selected_elem _ _ _ _ k t Hrun_c Hk Hsel) as (r & Hr & Hin1).
    apply (topicTask_contribution _ _ _ Hne) in Hr. unfold contribution in Hr.
    rewrite Hkc in Hr. destruct Hr as (cs1 & _ & ->).
    eexists. split; [by apply Hin1|]. simpl.
    rewrite (restrict_to_channel_TopicName _ _ _ Hrestrict).
    by rewrite (topicTask_TopicName _ _ _ Htask2). }
  apply (Forall2_by_keys TopicName); [|done..].
  apply (StronglySorted_unique String.le).
  - by apply (StronglySorted_fmap _ (λ a b, (TopicName a ≤ TopicName b)%string)).
  - eapply sublist_StronglySorted; [apply restrict_names_sublist|].
    by apply (StronglySorted_fmap _ (λ a b, (TopicName a ≤ TopicName b)%string)).
  - apply NoDup_Permutation; [done..|]. intros k. split.
    + intros (ts1 & -> & Hts1)%list_elem_of_fmap.
      destruct (H12 ts1 Hts1) as (ts2 & Hts2 & -> & _). by apply list_elem_of_fmap_2.
    + intros (ts2 & -> & Hts2)%list_elem_of_fmap.
      destruct (H21 ts2 Hts2) as (ts1 & Hts1 & <-). by apply list_elem_of_fmap_2.
Qed.

Lemma GetStats_channel_filter_restricts_witness :
  Forall2 TopicStats_equiv
    (GetStats_seq example_NSQD "" "billing")
    (omap (restrict_to_channel "billing") (GetStats_seq example_NSQD "" "")).
Proof.
  apply (GetStats_channel_filter_restricts example_NSQD "" "billing");
    [exact example_NSQD_wf | done | apply GetStats_seq_run | apply GetStats_seq_run].
Defined.
